(** * ai-content-detector: the enhanced detector (src/enhanced-detector.js)

    A shallow embedding of the pure parts of the enhanced detector and of its
    batch loop, followed by the properties of the specification that concern
    them.

    Conventions of the embedding.
    - A JavaScript number is an IEEE 754 binary64 value.  It is modelled by
      [spec_float] with precision 53 and maximal exponent 1024, with the
      round-to-nearest-even operations of the standard library's
      specification of floating-point arithmetic.  Counts (array lengths) are
      integers of [Z] and are converted with [of_Z] where the source uses
      them in an arithmetic expression.
    - A JavaScript string is a sequence of UTF-16 code units, a [list N].
    - The regular expressions of the source are values of a small syntax,
      run by a backtracking matcher that follows the ECMAScript semantics
      (ordered alternatives, greedy quantifiers, continuation passing).
    - A remote call, and a promise in general, is represented by its
      outcome: fulfilled with a value or rejected with an error message. *)

From Stdlib Require Import ZArith NArith Lia Bool List String Ascii.
From Stdlib Require Import Floats.SpecFloat.
From stdpp Require Import base list gmap.

Open Scope Z_scope.

(* ===================================================================== *)
(** * Numbers *)
(* ===================================================================== *)

Module JsNumber.

Definition prec : Z := 53.
Definition emax : Z := 1024.

Definition number : Type := spec_float.

(** The number that an integer denotes (exact below 2^53, rounded above). *)
Definition of_Z (z : Z) : number := binary_normalize prec emax z 0 false.

Definition add : number -> number -> number := SFadd prec emax.
Definition sub : number -> number -> number := SFsub prec emax.
Definition mul : number -> number -> number := SFmul prec emax.
Definition div : number -> number -> number := SFdiv prec emax.
Definition sqrt : number -> number := SFsqrt prec emax.

(** [x < y] and [x > y]; both are false as soon as an operand is NaN. *)
Definition lt (x y : number) : bool := SFltb x y.
Definition gt (x y : number) : bool := SFltb y x.
Definition le (x y : number) : bool := SFleb x y.
(** [x === y] on numbers. *)
Definition strict_eq (x y : number) : bool := SFeqb x y.

(** A decimal literal [n/d] of the source: the binary64 value nearest to
    the rational, which is what the correctly rounded quotient of the two
    (exactly representable) integers is. *)
Definition literal (n d : Z) : number := div (of_Z n) (of_Z d).

Definition NaN : number := S754_nan.
Definition Infinity : number := S754_infinity false.

(** A JavaScript number is a value in canonical form. *)
Definition is_number (x : number) : bool := valid_binary prec emax x.

(** [Math.round]: the integer nearest to [x], ties towards +Infinity; NaN,
    the infinities and the zeros are returned unchanged, and a negative
    [x >= -0.5] gives -0.  For a finite [x = ±m·2^e] with [e < 0] the
    integer is [floor (x + 1/2)], computed exactly. *)
Definition Math_round (x : number) : number :=
  match x with
  | S754_finite s m e =>
      if 0 <=? e then x
      else
        let n := (2 * cond_Zopp s (Zpos m) + 2 ^ (- e)) / 2 ^ (1 - e) in
        if n =? 0 then S754_zero s else of_Z n
  | _ => x
  end.

End JsNumber.

Import JsNumber.

(* ===================================================================== *)
(** * Strings *)
(* ===================================================================== *)

Module JsString.

Local Open Scope N_scope.

(** A UTF-16 code unit. *)
Definition char : Type := N.
Definition jsstring : Type := list char.

(** A string literal of the source (all of them are ASCII). *)
Definition str (s : string) : jsstring := map N_of_ascii (list_ascii_of_string s).

Definition in_range (lo hi c : char) : bool := ((lo <=? c) && (c <=? hi))%N.

(** White space and line terminators: the class [\s], and what [trim]
    strips. *)
Definition is_space (c : char) : bool :=
  (in_range 9 13 c || (c =? 32) || (c =? 160) || (c =? 5760)
   || in_range 8192 8202 c || (c =? 8232) || (c =? 8233) || (c =? 8239)
   || (c =? 8287) || (c =? 12288) || (c =? 65279))%N.

(** The class [\w]: [A-Za-z0-9_]. *)
Definition is_word (c : char) : bool :=
  (in_range 97 122 c || in_range 65 90 c || in_range 48 57 c || (c =? 95))%N.

Fixpoint drop_while (p : char -> bool) (s : jsstring) : jsstring :=
  match s with
  | c :: s' => if p c then drop_while p s' else s
  | [] => []
  end.

Definition trimStart (s : jsstring) : jsstring := drop_while is_space s.
Definition trimEnd (s : jsstring) : jsstring := rev (drop_while is_space (rev s)).
Definition trim (s : jsstring) : jsstring := trimEnd (trimStart s).

(** [s.split(sep)] for a separator of one code unit: the pieces between
    the separators, empty pieces included; the empty string gives one
    empty piece. *)
Fixpoint split (sep : char) (s : jsstring) : list jsstring :=
  match s with
  | [] => [[]]
  | c :: s' =>
      if (c =? sep)%N then [] :: split sep s'
      else match split sep s' with
           | w :: ws => (c :: w) :: ws
           | [] => [[c]]
           end
  end.

(** [toLowerCase] on the ASCII letters.  The strings the detector lowers
    come out of [preprocessText], whose result is ASCII; code units from
    128 on are left as they are here, so that the definition is that of
    the code on strings of ASCII units only. *)
Definition lower (c : char) : char := if in_range 65 90 c then (c + 32)%N else c.
Definition upper (c : char) : char := if in_range 97 122 c then (c - 32)%N else c.
Definition toLowerCase (s : jsstring) : jsstring := map lower s.

Fixpoint startsWith (s p : jsstring) : bool :=
  match p, s with
  | [], _ => true
  | a :: p', c :: s' => (c =? a)%N && startsWith s' p'
  | _ :: _, [] => false
  end.

Definition endsWith (s p : jsstring) : bool := startsWith (rev s) (rev p).

Definition eqb (s t : jsstring) : bool := bool_decide (s = t).

End JsString.

Import JsString.

(* ===================================================================== *)
(** * Regular expressions *)
(* ===================================================================== *)

Module RegExp.

Local Open Scope N_scope.

(** The fragment of the pattern syntax that the source uses.  A literal
    character is a class of one element; [+] is only ever applied to a
    class. *)
Inductive regex : Type :=
| Eps
| Cls (p : char -> bool)
| Seq (r1 r2 : regex)
| Alt (r1 r2 : regex)
| Opt (r : regex)
| Plus (p : char -> bool)
| WordBoundary.

(** A continuation receives the code unit before the current position (if
    any) and the input that is left; it answers with the input left after
    the whole match, or fails. *)
Definition cont : Type := option char -> jsstring -> option jsstring.

Definition accept : cont := fun _ rest => Some rest.

Definition is_word_at (c : option char) : bool :=
  match c with Some c => is_word c | None => false end.

(** [p+], greedy: take one more unit while that leads to a match, else
    stop after this one. *)
Fixpoint plus_loop (p : char -> bool) (k : cont) (s : jsstring) : option jsstring :=
  match s with
  | c :: s' =>
      if p c then
        match plus_loop p k s' with
        | Some rest => Some rest
        | None => k (Some c) s'
        end
      else None
  | [] => None
  end.

Fixpoint rmatch (r : regex) (prev : option char) (s : jsstring) (k : cont)
  : option jsstring :=
  match r with
  | Eps => k prev s
  | Cls p =>
      match s with
      | c :: s' => if p c then k (Some c) s' else None
      | [] => None
      end
  | Seq r1 r2 => rmatch r1 prev s (fun prev' s' => rmatch r2 prev' s' k)
  | Alt r1 r2 =>
      match rmatch r1 prev s k with
      | Some rest => Some rest
      | None => rmatch r2 prev s k
      end
  | Opt r1 =>
      match rmatch r1 prev s k with
      | Some rest => Some rest
      | None => k prev s
      end
  | Plus p => plus_loop p k s
  | WordBoundary =>
      if xorb (is_word_at prev) (is_word_at (head s)) then k prev s else None
  end.

(** One attempt at the current position: the input left after the match. *)
Definition exec_here (r : regex) (prev : option char) (s : jsstring) : option jsstring :=
  rmatch r prev s accept.

(** What a global scan ([/g]) makes of the input: the matches, leftmost
    first and not overlapping, and the code units between them. *)
Inductive piece : Type :=
| Matched (m : jsstring)
| Kept (c : char).

Fixpoint scan (fuel : nat) (r : regex) (prev : option char) (s : jsstring) : list piece :=
  match fuel with
  | O => []
  | S fuel' =>
      match exec_here r prev s, s with
      | Some rest, c :: s' =>
          if (length rest <? length s)%nat then
            let m := take (length s - length rest) s in
            Matched m :: scan fuel' r (last m) rest
          else
            (* an empty match: the search resumes one unit further *)
            Matched [] :: Kept c :: scan fuel' r (Some c) s'
      | Some _, [] => [Matched []]
      | None, c :: s' => Kept c :: scan fuel' r (Some c) s'
      | None, [] => []
      end
  end.

Definition pieces (r : regex) (s : jsstring) : list piece :=
  scan (S (length s)) r None s.

(** [s.replace(/r/g, by)] for a replacement without [$] patterns. *)
Definition replace_all (r : regex) (by_ : jsstring) (s : jsstring) : jsstring :=
  concat (map (fun p => match p with Matched _ => by_ | Kept c => [c] end) (pieces r s)).

(** [(s.match(/r/g) || []).length] *)
Definition match_count (r : regex) (s : jsstring) : Z :=
  Z.of_nat (length (List.filter (fun p => match p with Matched _ => true | Kept _ => false end)
                           (pieces r s))).

(** [/r/.test(s)]: is there a match somewhere in [s]? *)
Fixpoint search (r : regex) (prev : option char) (s : jsstring) : bool :=
  match exec_here r prev s with
  | Some _ => true
  | None => match s with
            | c :: s' => search r (Some c) s'
            | [] => false
            end
  end.

Definition test (r : regex) (s : jsstring) : bool := search r None s.

(** Builders for patterns. *)
Definition chr (a : ascii) : regex := Cls (N.eqb (N_of_ascii a)).
(** a literal character under the [i] flag *)
Definition chr_i (a : ascii) : regex := Cls (fun c => (upper c =? upper (N_of_ascii a))%N).
Definition one_of (s : string) (c : char) : bool :=
  existsb (N.eqb c) (str s).

(** a literal word, one character after the other *)
Fixpoint word (mk : ascii -> regex) (s : string) : regex :=
  match s with
  | EmptyString => Eps
  | String a s' => Seq (mk a) (word mk s')
  end.

End RegExp.

Import RegExp.

(* ===================================================================== *)
(** * The text preprocessor *)
(* ===================================================================== *)

Definition space : char := 32%N.

(** [/\s+/g] *)
Definition re_whitespace : regex := Plus is_space.

(** [/https?:\/\/\S+/g] *)
Definition re_url : regex :=
  Seq (word chr "http")
      (Seq (Opt (chr "s"))
           (Seq (word chr "://") (Plus (fun c => negb (is_space c))))).

(** the class [[\w.-]] *)
Definition is_address_char (c : char) : bool := is_word c || one_of ".-" c.

(** [/[\w.-]+@[\w.-]+\.\w+/g] *)
Definition re_email : regex :=
  Seq (Plus is_address_char)
      (Seq (chr "@")
           (Seq (Plus is_address_char) (Seq (chr ".") (Plus is_word)))).

(** The characters that are kept: word characters, white space and the
    punctuation . , ! ? ; : ' ( ) - and the double quote (code unit 34). *)
Definition is_kept (c : char) : bool :=
  is_word c || is_space c || one_of ".,!?;:'()-" c || (c =? 34)%N.

(** The pattern of the last replacement: one character outside the kept
    class, [/[^...]/g]. *)
Definition re_special : regex := Cls (fun c => negb (is_kept c)).

Definition preprocessText (text : jsstring) : jsstring :=
  match text with
  | [] => []
  | _ =>
      (* Normalize whitespace *)
      let processed := trim (replace_all re_whitespace [space] text) in
      (* Remove URLs *)
      let processed := replace_all re_url [] processed in
      (* Remove email addresses *)
      let processed := replace_all re_email [] processed in
      (* Remove special characters but keep punctuation *)
      replace_all re_special [] processed
  end.

(* ===================================================================== *)
(** * Text statistics *)
(* ===================================================================== *)

Record TextStats : Type := {
  words : Z;
  sentences : Z;
  avgWordsPerSentence : number;
  longWords : Z;
  personalPronouns : Z;
  readabilityScore : number;
  lexicalDiversity : number
}.

(** [/[.!?]+/g] *)
Definition re_sentence_end : regex := Plus (one_of ".!?").

(** [/\b(I|me|my|mine|myself|we|us|our|ours|ourselves)\b/gi] *)
Definition re_pronoun : regex :=
  Seq WordBoundary
      (Seq (Alt (word chr_i "I")
           (Alt (word chr_i "me")
           (Alt (word chr_i "my")
           (Alt (word chr_i "mine")
           (Alt (word chr_i "myself")
           (Alt (word chr_i "we")
           (Alt (word chr_i "us")
           (Alt (word chr_i "our")
           (Alt (word chr_i "ours")
                (word chr_i "ourselves"))))))))))
           WordBoundary).

(** [/[aeiouy]+/g] *)
Definition re_vowels : regex := Plus (one_of "aeiouy").

(** [text.split(' ').filter(word => word.length > n).length] *)
Definition count_longer_than (n : nat) (text : jsstring) : Z :=
  Z.of_nat (length (List.filter (fun word => (n <? length word)%nat) (split space text))).

Definition countSyllables (text : jsstring) : Z :=
  (* Simple approximation - count vowel groups *)
  let words := split space (toLowerCase text) in
  let count :=
    fold_left
      (fun count word =>
         let count := count + match_count re_vowels word in
         (* Adjust for common exceptions *)
         let count :=
           if endsWith word (str "e") && negb (endsWith word (str "le"))
           then count - 1 else count in
         if endsWith word (str "es") || endsWith word (str "ed")
         then count - 1 else count)
      words 0 in
  Z.max 1 count.

(** [new Set(tokens).size] *)
Definition distinct (tokens : list jsstring) : Z :=
  Z.of_nat (size (list_to_set tokens : gset jsstring)).

Definition calculateEnhancedTextStats (text : jsstring) : TextStats :=
  match text with
  | [] =>
      {| words := 0; sentences := 0; avgWordsPerSentence := of_Z 0;
         longWords := 0; personalPronouns := 0; readabilityScore := of_Z 0;
         lexicalDiversity := of_Z 0 |}
  | _ =>
      (* Basic stats *)
      let words := count_longer_than 0 text in
      let sentences := Z.max 1 (match_count re_sentence_end text) in
      let avgWordsPerSentence := div (of_Z words) (of_Z sentences) in
      (* Complex words (more than 6 characters) *)
      let longWords := count_longer_than 6 text in
      (* Personal pronouns *)
      let personalPronouns := match_count re_pronoun text in
      (* Readability score (Flesch-Kincaid Grade Level approximation) *)
      let syllables := countSyllables text in
      let readabilityScore :=
        sub (add (mul (literal 39 100) (div (of_Z words) (of_Z sentences)))
                 (mul (literal 118 10) (div (of_Z syllables) (of_Z words))))
            (literal 1559 100) in
      (* Lexical diversity (unique words / total words) *)
      let uniqueWords := distinct (split space (toLowerCase text)) in
      let lexicalDiversity :=
        if 0 <? words then div (of_Z uniqueWords) (of_Z words) else of_Z 0 in
      {| words := words;
         sentences := sentences;
         avgWordsPerSentence := avgWordsPerSentence;
         longWords := longWords;
         personalPronouns := personalPronouns;
         readabilityScore := div (Math_round (mul readabilityScore (of_Z 10))) (of_Z 10);
         lexicalDiversity := div (Math_round (mul lexicalDiversity (of_Z 100))) (of_Z 100) |}
  end.

(* ===================================================================== *)
(** * Remote scores, the embedding score and the combiner *)
(* ===================================================================== *)

(** How a promise settles. *)
Inductive outcome (A : Type) : Type :=
| Fulfilled (value : A)
| Rejected (message : jsstring).

Arguments Fulfilled {A} value.
Arguments Rejected {A} message.

Inductive Source : Type := human | ai.

Record RemoteScore : Type := {
  aiProbability : number;
  confidence : number;
  model : jsstring;
  factors : list jsstring;
  likelySource : Source;
  reasoning : jsstring
}.

Definition cosineSimilarity (vec1 vec2 : list number) : number :=
  if negb (length vec1 =? length vec2)%nat then of_Z 0
  else
    let '(dotProduct, norm1, norm2) :=
      fold_left
        (fun '(dotProduct, norm1, norm2) '(a, b) =>
           (add dotProduct (mul a b), add norm1 (mul a a), add norm2 (mul b b)))
        (zip vec1 vec2) (of_Z 0, of_Z 0, of_Z 0) in
    let norm1 := sqrt norm1 in
    let norm2 := sqrt norm2 in
    if strict_eq norm1 (of_Z 0) || strict_eq norm2 (of_Z 0) then of_Z 0
    else div dotProduct (mul norm1 norm2).

(** [Array(1536).fill(0.1)] and [Array(1536).fill(0.2)] *)
Definition aiPattern : list number := replicate 1536 (literal 1 10).
Definition humanPattern : list number := replicate 1536 (literal 2 10).

Section Detector.

(** The conversion of a number to a string in a template literal is the
    runtime's; the detector only splices its result into messages. *)
Variable Number_toString : number -> jsstring.

(** The probability that [performEmbeddingAnalysis] derives from the two
    similarities. *)
Definition similarityProbability (aiSimilarity humanSimilarity : number) : number :=
  let totalSimilarity := add aiSimilarity humanSimilarity in
  if gt totalSimilarity (of_Z 0)
  then Math_round (mul (div aiSimilarity totalSimilarity) (of_Z 100))
  else of_Z 50.

(** [embedding] is how the call [openai.embeddings.create] settled, with
    the vector [data[0].embedding] of the response when it did well. *)
Definition performEmbeddingAnalysis (embedding : outcome (list number))
  : outcome RemoteScore :=
  match embedding with
  | Fulfilled textEmbedding =>
      (* Calculate similarity scores *)
      let aiSimilarity := cosineSimilarity textEmbedding aiPattern in
      let humanSimilarity := cosineSimilarity textEmbedding humanPattern in
      (* Calculate AI probability based on similarity *)
      let aiProbability := similarityProbability aiSimilarity humanSimilarity in
      Fulfilled
        {| aiProbability := aiProbability;
           confidence := of_Z 70;
           model := str "text-embedding-ada-002";
           factors := [str "Embedding similarity analysis"];
           likelySource := if gt aiProbability (of_Z 60) then ai else human;
           reasoning :=
             str "Based on embedding similarity, this text has a "
             ++ Number_toString aiProbability
             ++ str "% probability of being AI-generated." |}
  | Rejected message =>
      Rejected (str "Failed to perform embedding analysis: " ++ message)
  end.

Definition embeddingWeight : number := literal 3 10.
Definition completionWeight : number := literal 7 10.

Definition combineAnalysisResults (embeddingResult completionResult : RemoteScore)
  : RemoteScore :=
  (* Calculate weighted AI probability *)
  let weightedAiProbability :=
    Math_round (add (mul (aiProbability embeddingResult) embeddingWeight)
                    (mul (aiProbability completionResult) completionWeight)) in
  (* Calculate weighted confidence *)
  let weightedConfidence :=
    Math_round (add (mul (confidence embeddingResult) embeddingWeight)
                    (mul (confidence completionResult) completionWeight)) in
  (* Combine factors *)
  let combinedFactors := factors embeddingResult ++ factors completionResult in
  (* Determine likely source *)
  let likelySource := if gt weightedAiProbability (of_Z 60) then ai else human in
  (* Combine reasoning *)
  let combinedReasoning :=
    str "Combined analysis: " ++ reasoning completionResult
    ++ str " Additionally, embedding similarity analysis suggests a "
    ++ Number_toString (aiProbability embeddingResult)
    ++ str "% probability of AI generation." in
  {| aiProbability := weightedAiProbability;
     confidence := weightedConfidence;
     factors := combinedFactors;
     likelySource := likelySource;
     reasoning := combinedReasoning;
     model := str "hybrid-approach" |}.

End Detector.

(* ===================================================================== *)
(** * The interpretation *)
(* ===================================================================== *)

Definition shortSampleCaveat : jsstring :=
  str "This sample is very short, which typically affects certainty, but our analysis suggests: ".
Definition comprehensivePrefix : jsstring :=
  str "Based on our comprehensive analysis: ".

Definition humanSummary : jsstring :=
  str "This text is likely human-written with natural speech patterns.".
Definition mixedSummary : jsstring :=
  str "This text has mixed indicators that could suggest either human or AI authorship.".
Definition aiSummary : jsstring :=
  str "This text shows patterns consistent with AI-generated content.".

Definition diversityNote : jsstring :=
  str " The low lexical diversity (repetitive vocabulary) is a common indicator of AI-generated text.".
Definition pronounNote : jsstring :=
  str " The absence of personal pronouns is unusual for human writing.".
Definition readabilityNote : jsstring :=
  str " The high readability score suggests formal, well-structured writing typical of AI.".

(** The summary chosen from the probability. *)
Definition summaryOf (p : number) : jsstring :=
  if lt p (of_Z 30) then humanSummary
  else if lt p (of_Z 60) then mixedSummary
  else aiSummary.

(** The notes appended after the summary. *)
Definition notesOf (textStats : TextStats) : jsstring :=
  (if lt (lexicalDiversity textStats) (literal 5 10) && (50 <? words textStats)
   then diversityNote else [])
  ++ (if (personalPronouns textStats =? 0) && (30 <? words textStats)
      then pronounNote else [])
  ++ (if gt (readabilityScore textStats) (of_Z 12) then readabilityNote else []).

Definition getEnhancedInterpretation (analysisResult : RemoteScore) (textStats : TextStats)
  : jsstring :=
  let lengthQualifier :=
    if words textStats <? 15 then shortSampleCaveat else comprehensivePrefix in
  let interpretation := lengthQualifier in
  let interpretation := interpretation ++ summaryOf (aiProbability analysisResult) in
  (* Add specific indicators *)
  interpretation ++ notesOf textStats.

(* ===================================================================== *)
(** * The batch loop *)
(* ===================================================================== *)

(** [Promise.all] over promises that all fulfil.  [order] lists the indices
    of the promises in the order in which they settle; each value is stored
    at the index of its promise, and the array is delivered once every slot
    is filled (never, if some promise does not settle). *)
Definition Promise_all {A : Type} (order : list nat) (promises : list A) : option (list A) :=
  let values :=
    foldl (fun values i =>
             match promises !! i with
             | Some v => <[i := Some v]> values
             | None => values
             end)
          (replicate (length promises) None) order in
  mapM id values.

Section Batch.

(** What one single-text analysis returns when it does well. *)
Context {Analysis : Type}.

(** [analyzeTextWithEnhancedOpenAI index text apiKey]: how the analysis
    started for the text at position [index] of the batch settles.  It
    issues the remote calls, so two calls on equal texts may settle
    differently. *)
Variable analyzeTextWithEnhancedOpenAI : nat -> jsstring -> jsstring -> outcome Analysis.

(** For the group that starts at position [i], the order in which its
    promises settle. *)
Variable completion_order : nat -> list nat.

(** An element of the result: the analysis with its text, or the record
    that stands for a failed item. *)
Inductive BatchItem : Type :=
| Analysed (text : jsstring) (analysis : Analysis)
| Failed (text : jsstring) (error : jsstring)
         (aiProbability confidence : number) (interpretation : jsstring).

Definition batchSize : nat := 3.

(** The promise made for one text of a group; it always fulfils, with
    [null] ([None]) for a blank text. *)
Definition batchPromise (apiKey : jsstring) (index : nat) (text : jsstring)
  : option BatchItem :=
  match trim text with
  | [] => None
  | _ :: _ =>
      Some match analyzeTextWithEnhancedOpenAI index text apiKey with
           | Fulfilled analysis => Analysed text analysis
           | Rejected message =>
               Failed text message (of_Z 50) (of_Z 10) (str "Analysis failed")
           end
  end.

(** The [for] loop, from position [i] on.  The pause between two groups
    has no effect on the result and is left out. *)
Fixpoint batch_loop (fuel : nat) (texts : list jsstring) (apiKey : jsstring)
  (i : nat) (results : list BatchItem) : option (list BatchItem) :=
  match fuel with
  | O => None
  | S fuel' =>
      if (i <? length texts)%nat then
        let batch := take batchSize (drop i texts) in
        let batchPromises := imap (fun j text => batchPromise apiKey (i + j) text) batch in
        (* Wait for the current batch to complete *)
        match Promise_all (completion_order i) batchPromises with
        | Some batchResults =>
            (* Filter out null results and add to results array *)
            batch_loop fuel' texts apiKey (i + batchSize) (results ++ omap id batchResults)
        | None => None
        end
      else Some results
  end.

Definition analyzeBatchWithEnhancedOpenAI (texts : list jsstring) (apiKey : jsstring)
  : option (list BatchItem) :=
  batch_loop (S (length texts)) texts apiKey 0 [].

End Batch.

Arguments BatchItem Analysis : clear implicits.

(* ===================================================================== *)
(** * The validation score and the single-text analysis *)
(* ===================================================================== *)

Definition calculateValidationScore (analysisResult : RemoteScore) (textStats : TextStats)
  : number :=
  let score := of_Z 0 in
  (* Base score on confidence *)
  let score := add score (mul (confidence analysisResult) (literal 4 10)) in
  (* Adjust based on text length (longer texts are more reliable) *)
  let lengthScore := of_Z (Z.min 100 (words textStats * 2)) in
  let score := add score (mul lengthScore (literal 2 10)) in
  (* Adjust based on lexical diversity *)
  let diversityScore := mul (lexicalDiversity textStats) (of_Z 100) in
  let score := add score (mul diversityScore (literal 2 10)) in
  (* Adjust based on personal pronouns *)
  let pronounScore := of_Z (Z.min 100 (personalPronouns textStats * 20)) in
  let score := add score (mul pronounScore (literal 2 10)) in
  Math_round score.

(** What [analyzeTextWithEnhancedOpenAI] returns. *)
Module Analysis.

Record ApiDetails : Type := {
  model : jsstring;
  confidenceFactors : list jsstring;
  reasoning : jsstring
}.

Record Result : Type := {
  aiProbability : number;
  confidence : number;
  textStats : TextStats;
  interpretation : jsstring;
  apiDetails : ApiDetails;
  sourceModel : jsstring;
  validationScore : number
}.

End Analysis.

(** The requests sent to the remote service, in the order of sending. *)
Inductive RemoteCall : Type :=
| EmbeddingsCreate (apiKey input : jsstring)
| ChatCompletionsCreate (apiKey text : jsstring)
| ModelsList (apiKey : jsstring).

(** A client of the remote service: how each of its calls settles.  The
    completion call is given by the text spliced into the fixed prompt, and
    settles with the parsed object of the response (a response that cannot
    be parsed rejects like a failed call); the listing settles with whether
    the [data] of the response is an array.

    The parsed object is taken to be well formed: it has the five fields
    that the prompt asks for, with their types (two numbers, an array of
    strings, a source and a string).  For such an object the defaults
    [|| []] and [|| ""] of the result are never taken and the spread of its
    [factors] succeeds; an object without an array under [factors] is not
    covered. *)
Record OpenAI : Type := {
  embeddings_create : jsstring -> outcome (list number);
  chat_completions_create : jsstring -> outcome RemoteScore;
  models_list : outcome bool
}.

Section Pipeline.

Variable Number_toString : number -> jsstring.

(** [new OpenAI({apiKey})] *)
Variable new_OpenAI : jsstring -> OpenAI.

(** [completion] is how the call [openai.chat.completions.create] and the
    parsing of its answer settled. *)
Definition performCompletionAnalysis (completion : outcome RemoteScore)
  : outcome RemoteScore :=
  match completion with
  | Fulfilled analysisResult =>
      Fulfilled
        {| aiProbability := aiProbability analysisResult;
           confidence := confidence analysisResult;
           factors := factors analysisResult;
           likelySource := likelySource analysisResult;
           reasoning := reasoning analysisResult;
           model := str "gpt-4o" |}
  | Rejected message =>
      Rejected (str "Failed to perform completion analysis: " ++ message)
  end.

(** The result comes with the requests that were sent. *)
Definition analyzeTextWithEnhancedOpenAI (text apiKey : jsstring)
  : outcome Analysis.Result * list RemoteCall :=
  match text, apiKey with
  | [], _ | _, [] => (Rejected (str "Text and API key are required"), [])
  | _ :: _, _ :: _ =>
      let openai := new_OpenAI apiKey in
      (* Text preprocessing *)
      let processedText := preprocessText text in
      let textStats := calculateEnhancedTextStats processedText in
      let embeddingCall := EmbeddingsCreate apiKey processedText in
      let completionCall := ChatCompletionsCreate apiKey processedText in
      (* Choose analysis approach based on text length *)
      let '(analysisResult, calls) :=
        if words textStats <? 100 then
          (* For short texts, use only completion-based analysis *)
          (performCompletionAnalysis (chat_completions_create openai processedText),
           [completionCall])
        else
          (* For longer texts, use a hybrid approach *)
          match performEmbeddingAnalysis Number_toString
                  (embeddings_create openai processedText) with
          | Rejected message => (Rejected message, [embeddingCall])
          | Fulfilled embeddingResult =>
              match performCompletionAnalysis
                      (chat_completions_create openai processedText) with
              | Rejected message => (Rejected message, [embeddingCall; completionCall])
              | Fulfilled completionResult =>
                  (* Combine results with weighted scoring *)
                  (Fulfilled (combineAnalysisResults Number_toString
                                embeddingResult completionResult),
                   [embeddingCall; completionCall])
              end
          end in
      match analysisResult with
      | Fulfilled analysisResult =>
          (* Calculate validation score *)
          let validationScore := calculateValidationScore analysisResult textStats in
          (Fulfilled
             {| Analysis.aiProbability := aiProbability analysisResult;
                Analysis.confidence := confidence analysisResult;
                Analysis.textStats := textStats;
                Analysis.interpretation :=
                  getEnhancedInterpretation analysisResult textStats;
                Analysis.apiDetails :=
                  {| Analysis.model := model analysisResult;
                     Analysis.confidenceFactors := factors analysisResult;
                     Analysis.reasoning := reasoning analysisResult |};
                Analysis.sourceModel := str "enhanced-openai";
                Analysis.validationScore := validationScore |},
           calls)
      | Rejected message =>
          (Rejected (str "Failed to analyze text: " ++ message), calls)
      end
  end.

Definition validateOpenAIKey (apiKey : jsstring) : bool * list RemoteCall :=
  match apiKey with
  | [] => (false, [])
  | _ :: _ =>
      if negb (startsWith apiKey (str "sk-")) then (false, [])
      else
        (* Make a minimal API call to check if the key works *)
        match models_list (new_OpenAI apiKey) with
        | Fulfilled isArray => (isArray, [ModelsList apiKey])
        | Rejected _ => (false, [ModelsList apiKey])
        end
  end.

End Pipeline.

(* ===================================================================== *)
(** * The batch over the single-text analysis, and its caller *)
(* ===================================================================== *)

(** The single-text analysis as the batch starts it for the text at
    position [index]: [clients index] is the client that this call makes
    for the key. *)
Definition analyzeItem (Number_toString : number -> jsstring)
  (clients : nat -> jsstring -> OpenAI)
  : nat -> jsstring -> jsstring -> outcome Analysis.Result :=
  fun index text apiKey =>
    fst (analyzeTextWithEnhancedOpenAI Number_toString (clients index) text apiKey).

(** The requests that the analysis of the text at [index] sends. *)
Definition requestsOf (Number_toString : number -> jsstring)
  (clients : nat -> jsstring -> OpenAI) (apiKey : jsstring) (index : nat) (text : jsstring)
  : list RemoteCall :=
  snd (analyzeTextWithEnhancedOpenAI Number_toString (clients index) text apiKey).

(** The texts that the page hands to the batch:
    [inputText.split('\n').filter(line => line.trim().length > 0)]. *)
Definition lines (inputText : jsstring) : list jsstring :=
  List.filter (fun line => (0 <? length (trim line))%nat) (split 10%N inputText).

(* ===================================================================== *)
(** * The statements of the specification *)
(* ===================================================================== *)

(** The weighted score in the words of the specification:
    round(0.3 × embedding + 0.7 × completion). *)
Definition spec_weighted (embedding completion : number) : number :=
  Math_round (add (mul (literal 3 10) embedding) (mul (literal 7 10) completion)).

(** The embedding probability in the words of the specification:
    round(100 × simAI/(simAI+simHuman)) if the similarity sum is nonzero,
    else 50. *)
Definition spec_similarityProbability (simAI simHuman : number) : number :=
  let sum := add simAI simHuman in
  if negb (strict_eq sum (of_Z 0))
  then Math_round (mul (of_Z 100) (div simAI sum))
  else of_Z 50.

(** The summary in the words of the specification: below 30 human-leaning,
    from 30 to 60 mixed, above 60 AI-leaning. *)
Definition spec_summaryOf (p : number) : jsstring :=
  if lt p (of_Z 30) then humanSummary
  else if gt p (of_Z 60) then aiSummary
  else mixedSummary.

(** Every run of white space is a single space, and there is none at either
    end. *)
Fixpoint single_spaced (s : jsstring) : bool :=
  match s with
  | [] => true
  | c :: s' =>
      (if is_space c
       then (c =? space)%N && match s' with
                              | d :: _ => negb (is_space d)
                              | [] => false
                              end
       else true)
      && single_spaced s'
  end.

Definition whitespace_normalized (s : jsstring) : bool :=
  single_spaced s && negb (match s with c :: _ => is_space c | [] => false end).

(** A number lies in the interval from 0 to 100. *)
Definition within_0_100 (x : number) : bool := le (of_Z 0) x && le x (of_Z 100).

(** The groups of the specification: consecutive slices of 3 texts, the
    last one possibly shorter. *)
Fixpoint groups_of {A : Type} (fuel : nat) (l : list A) : list (list A) :=
  match fuel, l with
  | S fuel', _ :: _ => take 3 l :: groups_of fuel' (drop 3 l)
  | _, _ => []
  end.

Definition groups {A : Type} (l : list A) : list (list A) := groups_of (length l) l.

(* ===================================================================== *)
(** * Notions used in the statements and proofs *)
(* ===================================================================== *)

(** Sample values. *)
Definition score (p c : number) : RemoteScore :=
  {| aiProbability := p; confidence := c; model := []; factors := [];
     likelySource := human; reasoning := [] |}.

Definition stats_of_words (n : Z) : TextStats :=
  {| words := n; sentences := 1; avgWordsPerSentence := of_Z n; longWords := 0;
     personalPronouns := 1; readabilityScore := of_Z 0; lexicalDiversity := of_Z 1 |}.

Definition no_text : number -> jsstring := fun _ => [].

(** [n] spaces. *)
Definition spaces (n : nat) : jsstring := replicate n space.

(** Equality of representations. *)
Definition same_number (x y : number) : bool :=
  match x, y with
  | S754_zero a, S754_zero b => Bool.eqb a b
  | S754_infinity a, S754_infinity b => Bool.eqb a b
  | S754_nan, S754_nan => true
  | S754_finite a m e, S754_finite b m' e' => Bool.eqb a b && (m =? m')%positive && (e =? e')
  | _, _ => false
  end.

(** The integer that a number is, if it is one. *)
Definition to_integer (x : number) : option Z :=
  match x with
  | S754_zero _ => Some 0
  | S754_finite s m e =>
      if 0 <=? e then Some (cond_Zopp s (Zpos m * 2 ^ e))
      else if Zpos m mod 2 ^ (- e) =? 0 then Some (cond_Zopp s (Zpos m / 2 ^ (- e)))
      else None
  | _ => None
  end.

(** The weighted score of the integers [a] and [b] is an integer between
    them. *)
Definition weighted_between (a b : Z) : bool :=
  let r := Math_round (add (mul (of_Z a) embeddingWeight) (mul (of_Z b) completionWeight)) in
  match to_integer r with
  | Some n => (Z.min a b <=? n) && (n <=? Z.max a b) && same_number r (of_Z n)
  | None => false
  end.

(** What [k] halvings leave of [M]: the quotient, and no round or sticky
    bit when nothing was cut off. *)
Definition halved (M : Z) (k : Z) (mrs : shr_record) : Prop :=
  shr_m mrs = M / 2 ^ k /\ (M mod 2 ^ k = 0 -> shr_r mrs = false /\ shr_s mrs = false).

(** A bound [B / 2^k] with [B] of at most 53 bits: it is a multiple of the
    unit in the last place of every number under it. *)
Definition bound_ok (B k : Z) : Prop := 0 < B < 2 ^ 53 /\ 1 <= k <= 1074.

(** The value of a number is at most [B / 2^k]: it is a zero, or positive
    and finite with a mantissa under the bound. *)
Definition bounded_by (B k : Z) (x : number) : Prop :=
  match x with
  | S754_zero _ => True
  | S754_finite false m e => e + k <= 0 /\ Zpos m <= B * 2 ^ (- e - k)
  | _ => False
  end.

(** A text that is not blank: [text.trim()] is not empty. *)
Definition nonblank (text : jsstring) : bool :=
  match trim text with [] => false | _ :: _ => true end.

Definition item_text {Analysis : Type} (item : BatchItem Analysis) : jsstring :=
  match item with
  | Analysed text _ => text
  | Failed text _ _ _ _ => text
  end.

(** The item made for a non-blank text. *)
Definition item_for {Analysis : Type}
  (analyze : nat -> jsstring -> jsstring -> outcome Analysis)
  (apiKey : jsstring) (index : nat) (text : jsstring) : BatchItem Analysis :=
  match analyze index text apiKey with
  | Fulfilled analysis => Analysed text analysis
  | Rejected message => Failed text message (of_Z 50) (of_Z 10) (str "Analysis failed")
  end.

(** The position of the item of the text at [index]: the number of
    non-blank texts before it. *)
Definition slot (texts : list jsstring) (index : nat) : nat :=
  length (List.filter nonblank (take index texts)).

(** Every promise of every group settles. *)
Definition all_settle (completion_order : nat -> list nat) (texts : list jsstring) : Prop :=
  forall (k : nat) (g : list jsstring), groups texts !! k = Some g ->
    forall j : nat, (j < length g)%nat -> j ∈ completion_order (batchSize * k)%nat.

(** One step of [Promise.all]: the promise [i] settles. *)
Definition settle {A : Type} (promises : list A) (values : list (option A)) (i : nat)
  : list (option A) :=
  match promises !! i with
  | Some v => <[i := Some v]> values
  | None => values
  end.

(** A completion order in which every promise of a group settles, first to
    last. *)
Definition in_order : nat -> list nat := fun _ => [0; 1; 2]%nat.

(** A completion order in which the last promise of a group settles
    first. *)
Definition last_first : nat -> list nat := fun _ => [2; 0; 1]%nat.

(** A completion order in which the second promise of a group never
    settles. *)
Definition second_pending : nat -> list nat := fun _ => [0; 2]%nat.

(** A sample analysis: the text at position 1 fails, the others succeed
    with their position. *)
Definition sample_analysis : nat -> jsstring -> jsstring -> outcome nat :=
  fun index _ _ => if (index =? 1)%nat then Rejected (str "timeout") else Fulfilled index.

Definition sample_texts : list jsstring := [str "one"; str "two"; str "  "; str "four"].

(** An ASCII code unit. *)
Definition is_ascii (c : char) : bool := (c <? 128)%N.

(** A number is a zero. *)
Definition is_zero (x : number) : bool :=
  match x with S754_zero _ => true | _ => false end.

(** The accumulation of [cosineSimilarity]. *)
Definition accumulate (vec1 vec2 : list number) (start : number * number * number)
  : number * number * number :=
  fold_left
    (fun '(dotProduct, norm1, norm2) '(a, b) =>
       (add dotProduct (mul a b), add norm1 (mul a a), add norm2 (mul b b)))
    (zip vec1 vec2) start.

(** No two white-space units next to each other. *)
Fixpoint no_adjacent_spaces (s : jsstring) : bool :=
  match s with
  | c :: (d :: _) as s' => negb (is_space c && is_space d) && no_adjacent_spaces s'
  | _ => true
  end.

Definition starts_with_space (s : jsstring) : bool :=
  match s with c :: _ => is_space c | [] => false end.

Definition only_plain_spaces (s : jsstring) : bool :=
  forallb (fun c => implb (is_space c) (c =? space)%N) s.

(** What the scan for white space leaves once every match is replaced by
    one space. *)
Definition collapsed (fuel : nat) (prev : option char) (s : jsstring) : jsstring :=
  concat (map (fun p => match p with Matched _ => [space] | Kept c => [c] end)
              (scan fuel re_whitespace prev s)).

(** A text of a hundred words. *)
Definition wordy_text : jsstring := concat (replicate 100 (str "word ")).

(** A client whose calls settle in the given way, whatever they are sent. *)
Definition client_of (embedding : outcome (list number)) (completion : outcome RemoteScore)
  (listing : outcome bool) : jsstring -> OpenAI :=
  fun _ => {| embeddings_create := fun _ => embedding;
              chat_completions_create := fun _ => completion;
              models_list := listing |}.

(** A client whose embedding call fails and whose other calls do well. *)
Definition sample_client : jsstring -> OpenAI :=
  client_of (Rejected (str "quota")) (Fulfilled (score (of_Z 80) (of_Z 90))) (Fulfilled true).

(** A client whose calls all do well. *)
Definition obliging_client : jsstring -> OpenAI :=
  client_of (Fulfilled [of_Z 1; of_Z 2]) (Fulfilled (score (of_Z 80) (of_Z 90)))
            (Fulfilled true).

(** An input of three lines, the second one blank. *)
Definition sample_input : jsstring :=
  str "one" ++ [10%N] ++ str "  " ++ [10%N] ++ str "two".

(* ===================================================================== *)
(** * Facts about numbers *)
(* ===================================================================== *)

Section NumberFacts.

Lemma mul_comm (x y : number) : mul x y = mul y x.
Proof.
  destruct x as [sx|sx| |sx mx ex], y as [sy|sy| |sy my ey]; simpl;
    rewrite ?(xorb_comm sx sy); try reflexivity.
  unfold mul; simpl. now rewrite (Pos.mul_comm mx my), (Z.add_comm ex ey).
Qed.

(** A comparison with NaN is false. *)
Lemma lt_NaN_l (y : number) : lt NaN y = false.
Proof. reflexivity. Qed.

Lemma gt_NaN_l (y : number) : gt NaN y = false.
Proof. now destruct y. Qed.

End NumberFacts.

(* ===================================================================== *)
(** * Rounding to nearest stays under a representable bound *)
(* ===================================================================== *)

Section Rounding.

Lemma digits2_pos_bounds (m : positive) :
  2 ^ (Zpos (digits2_pos m) - 1) <= Zpos m < 2 ^ Zpos (digits2_pos m).
Proof.
  induction m as [m IH|m IH|]; cbn [digits2_pos].
  - rewrite Pos2Z.inj_succ. replace (Z.succ (Zpos (digits2_pos m)) - 1) with (Z.succ (Zpos (digits2_pos m) - 1)) by lia.
    rewrite !Z.pow_succ_r by lia. lia.
  - rewrite Pos2Z.inj_succ. replace (Z.succ (Zpos (digits2_pos m)) - 1) with (Z.succ (Zpos (digits2_pos m) - 1)) by lia.
    rewrite !Z.pow_succ_r by lia. lia.
  - cbn. lia.
Qed.

Lemma digits2_pos_le (m : positive) (k : Z) :
  0 <= k -> Zpos m < 2 ^ k -> Zpos (digits2_pos m) <= k.
Proof.
  intros Hk Hm. destruct (digits2_pos_bounds m) as [Hlo _].
  destruct (Z_le_gt_dec (Zpos (digits2_pos m)) k) as [|Hgt]; [assumption|].
  assert (2 ^ k <= 2 ^ (Zpos (digits2_pos m) - 1)) by (apply Z.pow_le_mono_r; lia).
  lia.
Qed.

Lemma shr_1_halved (M k : Z) (mrs : shr_record) :
  0 <= M -> 0 <= k -> halved M k mrs -> halved M (k + 1) (shr_1 mrs).
Proof.
  intros HM Hk [Hm Hrs].
  assert (Hpow : 0 < 2 ^ k) by (apply Z.pow_pos_nonneg; lia).
  assert (Hq : 0 <= M / 2 ^ k) by (apply Z.div_pos; lia).
  assert (Hdiv : M / 2 ^ (k + 1) = M / 2 ^ k / 2).
  { rewrite Z.pow_add_r, Z.pow_1_r by lia. now rewrite Z.div_div by lia. }
  assert (Hmod : M mod 2 ^ (k + 1) = 0 -> M mod 2 ^ k = 0 /\ (M / 2 ^ k) mod 2 = 0).
  { rewrite Z.pow_add_r, Z.pow_1_r by lia. intros H0.
    rewrite Z.rem_mul_r in H0 by lia.
    pose proof (Z.mod_pos_bound M (2 ^ k) Hpow).
    pose proof (Z.mod_pos_bound (M / 2 ^ k) 2 ltac:(lia)). nia. }
  destruct mrs as [m r s]; cbn [shr_m shr_r shr_s] in *. subst m.
  unfold halved. rewrite Hdiv.
  destruct (M / 2 ^ k) as [|q|q] eqn:Eq; [| |lia].
  - cbn. split; [reflexivity|]. intros H0. destruct (Hmod H0) as [H1 _].
    destruct (Hrs H1) as [-> ->]. auto.
  - destruct q as [q|q|]; cbn [shr_1 shr_m shr_r shr_s].
    + split; [apply Z.div_unique with 1; lia|].
      intros H0. destruct (Hmod H0) as [_ H2].
      rewrite <- (Z.mod_unique (Zpos q~1) 2 (Zpos q) 1) in H2 by lia. discriminate.
    + split; [apply Z.div_unique with 0; lia|].
      intros H0. destruct (Hmod H0) as [H1 _]. destruct (Hrs H1) as [-> ->]. auto.
    + split; [reflexivity|]. intros H0. destruct (Hmod H0) as [_ H2]. discriminate.
Qed.

Lemma iter_shr_1_halved (p : positive) :
  forall (M k : Z) (mrs : shr_record),
    0 <= M -> 0 <= k -> halved M k mrs -> halved M (k + Zpos p) (SpecFloat.iter_pos shr_1 p mrs).
Proof.
  induction p as [p IH|p IH|]; intros M k mrs HM Hk H; cbn [SpecFloat.iter_pos].
  - replace (k + Zpos p~1) with (k + 1 + Zpos p + Zpos p) by lia.
    apply IH; [lia|lia|]. apply IH; [lia|lia|]. now apply shr_1_halved.
  - replace (k + Zpos p~0) with (k + Zpos p + Zpos p) by lia.
    apply IH; [lia|lia|]. now apply IH.
  - now apply shr_1_halved.
Qed.

Lemma shr_halved (M E n : Z) :
  0 <= M ->
  let '(mrs, e') := shr (Build_shr_record M false false) E n in
  (0 < n -> e' = E + n /\ halved M n mrs)
  /\ (n <= 0 -> e' = E /\ mrs = Build_shr_record M false false).
Proof.
  intros HM. destruct n as [|p|p]; cbn [shr].
  - split; [lia|auto].
  - split; [|lia]. intros _. split; [reflexivity|].
    apply (iter_shr_1_halved p M 0); [lia|lia|].
    split; cbn; [now rewrite Z.div_1_r|auto].
  - split; [lia|auto].
Qed.

Lemma fexp_under_bound (B k m e : Z) :
  bound_ok B k -> 0 <= m -> e + k <= 0 -> m <= B * 2 ^ (- e - k) ->
  fexp prec emax (Zdigits2 m + e) + k <= 0.
Proof.
  intros [HB Hk] Hm He Hle. unfold fexp, emin, prec, emax.
  assert (Zdigits2 m + e - 53 + k <= 0); [|lia].
  destruct m as [|m|m]; [cbn; lia| |lia]. cbn [Zdigits2].
  assert (Zpos (digits2_pos m) <= 53 + (- e - k)); [|lia].
  apply digits2_pos_le; [lia|].
  rewrite Z.pow_add_r by lia.
  assert (0 < 2 ^ (- e - k)) by (apply Z.pow_pos_nonneg; lia). nia.
Qed.

(** One alignment step on an exact value keeps it under a bound that is
    a multiple of the unit in the last place, also after rounding to
    nearest. *)
Lemma shr_fexp_bounded (B k m e : Z) :
  bound_ok B k -> 0 <= m -> e + k <= 0 -> m <= B * 2 ^ (- e - k) ->
  let '(mrs, e') := shr_fexp prec emax m e loc_Exact in
  e' + k <= 0
  /\ 0 <= shr_m mrs <= B * 2 ^ (- e' - k)
  /\ 0 <= round_nearest_even (shr_m mrs) (loc_of_shr_record mrs) <= B * 2 ^ (- e' - k).
Proof.
  intros HB Hm He Hle.
  pose proof (fexp_under_bound B k m e HB Hm He Hle) as Hf.
  unfold shr_fexp. cbn [shr_record_of_loc].
  set (n := fexp prec emax (Zdigits2 m + e) - e) in *.
  pose proof (shr_halved m e n Hm) as Hs.
  destruct (shr _ e n) as [mrs e'].
  destruct (Z_lt_le_dec 0 n) as [Hn|Hn].
  - destruct Hs as [Hs _]. destruct (Hs Hn) as [-> [Hq Hrs]].
    assert (Hen : e + n + k <= 0) by (unfold n; lia).
    split; [exact Hen|].
    assert (Hp : 0 < 2 ^ n) by (apply Z.pow_pos_nonneg; lia).
    assert (HK : B * 2 ^ (- e - k) = B * 2 ^ (- (e + n) - k) * 2 ^ n).
    { rewrite <- Z.mul_assoc, <- Z.pow_add_r by lia. f_equal. f_equal. lia. }
    set (K := B * 2 ^ (- (e + n) - k)) in *.
    assert (HqK : m / 2 ^ n <= K).
    { apply Z.div_le_upper_bound; lia. }
    assert (Hq0 : 0 <= m / 2 ^ n) by (apply Z.div_pos; lia).
    split; [lia|]. rewrite Hq.
    destruct (Z.eq_dec (m mod 2 ^ n) 0) as [Hz|Hnz].
    + destruct (Hrs Hz) as [Hr Hst]. destruct mrs as [mm r st]; cbn in Hr, Hst; subst.
      cbn. lia.
    + assert (m / 2 ^ n < K).
      { apply Z.div_lt_upper_bound; [lia|].
        pose proof (Z.div_mod m (2 ^ n) ltac:(lia)).
        pose proof (Z.mod_pos_bound m (2 ^ n) Hp).
        destruct (Z.eq_dec m (2 ^ n * K)) as [Heq|]; [|lia].
        exfalso. apply Hnz. rewrite Heq, Z.mul_comm. apply Z.mod_mul. lia. }
      destruct mrs as [mm r st]; cbn [shr_m] in *.
      destruct r, st; cbn [loc_of_shr_record round_nearest_even];
        try destruct (Z.even _); lia.
  - destruct Hs as [_ Hs]. destruct (Hs Hn) as [-> ->]. cbn. lia.
Qed.

Lemma binary_round_aux_bounded (B k : Z) (M : positive) (E : Z) :
  bound_ok B k -> E + k <= 0 -> Zpos M <= B * 2 ^ (- E - k) ->
  bounded_by B k (binary_round_aux prec emax false (Zpos M) E loc_Exact).
Proof.
  intros HB HE HM. unfold binary_round_aux.
  pose proof (shr_fexp_bounded B k (Zpos M) E HB ltac:(lia) HE HM) as H1.
  destruct (shr_fexp prec emax (Zpos M) E loc_Exact) as [mrs' e'].
  destruct H1 as (He' & _ & Hr0 & Hr).
  pose proof (shr_fexp_bounded B k _ e' HB Hr0 He' Hr) as H2.
  destruct (shr_fexp prec emax _ e' loc_Exact) as [mrs'' e''].
  destruct H2 as (He'' & [Hm0 Hm] & _).
  destruct (shr_m mrs'') as [|m|m]; [exact I| |lia].
  destruct HB as [_ Hk].
  replace (e'' <=? emax - prec) with true
    by (symmetry; apply Z.leb_le; unfold emax, prec; lia).
  split; assumption.
Qed.

Lemma bounded_by_weaken (B k B' k' : Z) (x : number) :
  0 <= k' <= k -> B <= B' * 2 ^ (k - k') -> bounded_by B k x -> bounded_by B' k' x.
Proof.
  intros Hk HB. destruct x as [s|s| |[|] m e]; cbn; try tauto.
  intros [He Hm]. split; [lia|].
  replace (- e - k') with ((- e - k) + (k - k')) by lia.
  rewrite Z.pow_add_r by lia.
  assert (0 < 2 ^ (- e - k)) by (apply Z.pow_pos_nonneg; lia).
  assert (0 < 2 ^ (k - k')) by (apply Z.pow_pos_nonneg; lia). nia.
Qed.

Lemma mul_bounded (B k B' k' : Z) (x : number) (mw : positive) (ew : Z) :
  bound_ok B' k' -> 0 <= k -> ew + k' <= k ->
  B * Zpos mw <= B' * 2 ^ (k - ew - k') ->
  bounded_by B k x -> bounded_by B' k' (mul x (S754_finite false mw ew)).
Proof.
  intros HB' Hk Hew Hw Hx. destruct x as [s|s| |[|] m e]; cbn in Hx; try tauto.
  destruct Hx as [He Hm]. unfold mul. cbn [SFmul xorb].
  apply binary_round_aux_bounded; [assumption|lia|].
  rewrite Pos2Z.inj_mul.
  replace (- (e + ew) - k') with ((- e - k) + (k - ew - k')) by lia.
  rewrite Z.pow_add_r by lia.
  assert (0 < 2 ^ (- e - k)) by (apply Z.pow_pos_nonneg; lia).
  assert (0 < 2 ^ (k - ew - k')) by (apply Z.pow_pos_nonneg; lia).
  nia.
Qed.

Lemma iter_xO (d m : positive) : Zpos (Pos.iter xO m d) = Zpos m * 2 ^ Zpos d.
Proof.
  induction d as [|d IH] using Pos.peano_ind.
  - cbn. lia.
  - rewrite Pos.iter_succ, Pos2Z.inj_xO, IH, Pos2Z.inj_succ, Z.pow_succ_r by lia. lia.
Qed.

Lemma shl_align_spec (m : positive) (e e' : Z) :
  let '(m', e'') := shl_align m e e' in
  e'' <= e /\ Zpos m' = Zpos m * 2 ^ (e - e'').
Proof.
  unfold shl_align. destruct (e' - e) as [|d|d] eqn:Hd.
  - split; [lia|]. rewrite Z.sub_diag. cbn. lia.
  - split; [lia|]. rewrite Z.sub_diag. cbn. lia.
  - split; [lia|]. rewrite iter_xO. f_equal. f_equal. lia.
Qed.

Lemma aligned_bounded (B k : Z) (m : positive) (e ez : Z) :
  ez <= e -> e + k <= 0 -> Zpos m <= B * 2 ^ (- e - k) ->
  Zpos (fst (shl_align m e ez)) <= B * 2 ^ (- ez - k).
Proof.
  intros Hez He Hm. pose proof (shl_align_spec m e ez) as H.
  unfold shl_align in *. destruct (ez - e) as [|d|d] eqn:Hd; cbn [fst].
  - replace ez with e by lia. assumption.
  - lia.
  - destruct H as [_ ->]. replace (- ez - k) with ((- e - k) + (e - ez)) by lia.
    rewrite Z.pow_add_r by lia.
    assert (0 < 2 ^ (e - ez)) by (apply Z.pow_pos_nonneg; lia). nia.
Qed.

Lemma binary_round_bounded (B k : Z) (M : positive) (E : Z) :
  bound_ok B k -> E + k <= 0 -> Zpos M <= B * 2 ^ (- E - k) ->
  bounded_by B k (binary_round prec emax false M E).
Proof.
  intros HB HE HM. unfold binary_round.
  pose proof (shl_align_spec M E (fexp prec emax (Zpos (digits2_pos M) + E))) as H.
  destruct (shl_align M E _) as [mz ez]. destruct H as [Hez Hmz].
  apply binary_round_aux_bounded; [assumption|lia|].
  rewrite Hmz. replace (- ez - k) with ((- E - k) + (E - ez)) by lia.
  rewrite Z.pow_add_r by lia.
  assert (0 < 2 ^ (E - ez)) by (apply Z.pow_pos_nonneg; lia). nia.
Qed.

Lemma add_bounded (B1 B2 k : Z) (x y : number) :
  0 < B1 -> 0 < B2 -> bound_ok (B1 + B2) k ->
  bounded_by B1 k x -> bounded_by B2 k y -> bounded_by (B1 + B2) k (add x y).
Proof.
  intros H1 H2 H12 Hx Hy.
  destruct x as [sx|sx| |[|] mx ex]; cbn in Hx; try tauto;
    destruct y as [sy|sy| |[|] my ey]; cbn in Hy; try tauto.
  - destruct sx, sy; exact I.
  - apply (bounded_by_weaken B2 k); [destruct H12; lia|rewrite Z.sub_diag; lia|exact Hy].
  - apply (bounded_by_weaken B1 k); [destruct H12; lia|rewrite Z.sub_diag; lia|exact Hx].
  - destruct Hx as [Hex Hmx], Hy as [Hey Hmy].
    unfold add. cbn [SFadd cond_Zopp]. set (ez := Z.min ex ey).
    pose proof (aligned_bounded B1 k mx ex ez ltac:(lia) Hex Hmx) as Ha.
    pose proof (aligned_bounded B2 k my ey ez ltac:(lia) Hey Hmy) as Hb.
    cbn [Z.add binary_normalize].
    apply binary_round_bounded; [assumption|lia|].
    rewrite Pos2Z.inj_add. lia.
Qed.

Lemma within_of_Z (n : Z) : 0 <= n <= 100 -> within_0_100 (of_Z n) = true.
Proof.
  intros Hn.
  assert (H : forallb (fun k => within_0_100 (of_Z (Z.of_nat k))) (seq 0 101) = true)
    by (vm_compute; reflexivity).
  rewrite forallb_forall in H. specialize (H (Z.to_nat n)).
  rewrite Z2Nat.id in H by lia. apply H, in_seq. lia.
Qed.

(** Rounding a number under 100.5 gives a number between 0 and 100. *)
Lemma Math_round_bounded (B k : Z) (x : number) :
  1 <= k -> 2 * B < 201 * 2 ^ k ->
  bounded_by B k x -> within_0_100 (Math_round x) = true.
Proof.
  intros Hk HB. destruct x as [s|s| |[|] m e]; cbn [bounded_by]; try tauto.
  intros [He Hm]. unfold Math_round.
  replace (0 <=? e) with false by (symmetry; apply Z.leb_gt; lia).
  cbn [cond_Zopp]. set (n := (2 * Zpos m + 2 ^ (- e)) / 2 ^ (1 - e)).
  assert (Hp : 0 < 2 ^ (- e - k)) by (apply Z.pow_pos_nonneg; lia).
  assert (Hpk : 0 < 2 ^ k) by (apply Z.pow_pos_nonneg; lia).
  assert (Hpe : 2 ^ (- e) = 2 ^ (- e - k) * 2 ^ k).
  { rewrite <- Z.pow_add_r by lia. f_equal. lia. }
  assert (Hp1 : 2 ^ (1 - e) = 2 * 2 ^ (- e)).
  { replace (1 - e) with (Z.succ (- e)) by lia. apply Z.pow_succ_r. lia. }
  assert (Hn : 0 <= n <= 100).
  { unfold n. rewrite Hp1. split.
    - apply Z.div_pos; lia.
    - apply Z.lt_succ_r, Z.div_lt_upper_bound; [lia|]. rewrite Hpe. nia. }
  destruct (n =? 0); [reflexivity|]. now apply within_of_Z.
Qed.

Lemma digits_of_number (m : positive) (e : Z) :
  is_number (S754_finite false m e) = true -> Zpos m < 2 ^ 53.
Proof.
  unfold is_number. cbn [valid_binary]. unfold bounded, canonical_mantissa.
  intros H. apply andb_true_iff in H. destruct H as [H _]. apply Z.eqb_eq in H.
  unfold fexp, prec in H.
  assert (Hd : Zpos (digits2_pos m) <= 53) by lia.
  destruct (digits2_pos_bounds m) as [_ Hhi].
  assert (2 ^ Zpos (digits2_pos m) <= 2 ^ 53) by (apply Z.pow_le_mono_r; lia). lia.
Qed.

(** A number between 0 and 100 is under the bound 100 = 200/2. *)
Lemma within_bounded (x : number) :
  is_number x = true -> within_0_100 x = true -> bounded_by 200 1 x.
Proof.
  intros Hv Hw. unfold within_0_100 in Hw. apply andb_true_iff in Hw.
  destruct Hw as [H0 H100].
  destruct x as [s|s| |s m e]; cbn [bounded_by].
  - exact I.
  - destruct s; [vm_compute in H0|vm_compute in H100]; discriminate.
  - vm_compute in H0. discriminate.
  - destruct s; [vm_compute in H0; discriminate|].
    pose proof (digits_of_number m e Hv) as Hd.
    unfold le in H100.
    replace (of_Z 100) with (S754_finite false 7036874417766400 (-46)) in H100
      by (vm_compute; reflexivity).
    unfold SFleb in H100. cbn [SFcompare] in H100.
    destruct (Z.compare_spec e (-46)) as [He|He|He]; [| |discriminate].
    + subst e. split; [lia|]. change (2 ^ (- -46 - 1)) with 35184372088832.
      assert (Hc : (m <= 7036874417766400)%positive).
      { unfold Pos.le, Pos.compare.
        destruct (Pos.compare_cont Eq m 7036874417766400); discriminate. }
      apply Pos2Z.pos_le_pos in Hc. clear - Hc. lia.
    + split; [lia|].
      assert (H : 2 ^ 46 <= 2 ^ (- e - 1)) by (apply Z.pow_le_mono_r; lia).
      change (2 ^ 53) with 9007199254740992 in Hd.
      change (2 ^ 46) with 70368744177664 in H. clear - Hd H. lia.
Qed.

(** The weighted score of two numbers between 0 and 100 lies between 0
    and 100. *)
Lemma weighted_within (x y : number) :
  is_number x = true -> is_number y = true ->
  within_0_100 x = true -> within_0_100 y = true ->
  within_0_100 (Math_round (add (mul x (literal 3 10)) (mul y (literal 7 10)))) = true.
Proof.
  intros Hx Hy Wx Wy.
  replace (literal 3 10) with (S754_finite false 5404319552844595 (-54))
    by (vm_compute; reflexivity).
  replace (literal 7 10) with (S754_finite false 6305039478318694 (-53))
    by (vm_compute; reflexivity).
  apply (Math_round_bounded (60 + 140) 1); [lia|reflexivity|].
  apply add_bounded; [lia|lia|split; [split; [lia|reflexivity]|lia]| |].
  - apply (mul_bounded 200 1);
      [split; [split; [lia|reflexivity]|lia]|lia|lia|vm_compute; discriminate|].
    now apply within_bounded.
  - apply (mul_bounded 200 1);
      [split; [split; [lia|reflexivity]|lia]|lia|lia|vm_compute; discriminate|].
    now apply within_bounded.
Qed.

End Rounding.

(* ===================================================================== *)
(** * The combiner: the weighted score *)
(* ===================================================================== *)

Section CombinerFacts.

Variable Number_toString : number -> jsstring.

Let combine := combineAnalysisResults Number_toString.

(** C1.  For every embedding result and completion result the combiner
    returns aiProbability = round(0.3 × embedding.aiProbability + 0.7 ×
    completion.aiProbability), confidence = round(0.3 ×
    embedding.confidence + 0.7 × completion.confidence), the factors of
    the embedding result followed by those of the completion result, and
    likelySource ai exactly when the weighted aiProbability is greater than
    60, else human.  For the completion result with aiProbability 80 and
    confidence 90 and the embedding result with aiProbability 40 and
    confidence 70 it returns aiProbability 68 and confidence 84.  The
    arithmetic is that of binary64 numbers. *)
Theorem combineAnalysisResults_weighted (embeddingResult completionResult : RemoteScore) :
  let r := combine embeddingResult completionResult in
  aiProbability r
    = spec_weighted (aiProbability embeddingResult) (aiProbability completionResult)
  /\ confidence r
    = spec_weighted (confidence embeddingResult) (confidence completionResult)
  /\ factors r = factors embeddingResult ++ factors completionResult
  /\ (likelySource r = ai <-> gt (aiProbability r) (of_Z 60) = true)
  /\ (likelySource r = human <-> gt (aiProbability r) (of_Z 60) = false)
  /\ (aiProbability embeddingResult = of_Z 40 ->
      confidence embeddingResult = of_Z 70 ->
      aiProbability completionResult = of_Z 80 ->
      confidence completionResult = of_Z 90 ->
      aiProbability r = of_Z 68 /\ confidence r = of_Z 84).
Proof.
  cbn zeta. unfold combine, combineAnalysisResults, spec_weighted.
  cbn [aiProbability confidence factors likelySource].
  unfold embeddingWeight, completionWeight.
  rewrite !(mul_comm (literal 3 10)), !(mul_comm (literal 7 10)).
  split; [reflexivity|]. split; [reflexivity|]. split; [reflexivity|].
  split; [destruct (gt _ _); split; congruence|].
  split; [destruct (gt _ _); split; congruence|].
  intros He Hec Hc Hcc. rewrite He, Hec, Hc, Hcc.
  split; vm_compute; reflexivity.
Qed.

End CombinerFacts.

Lemma combineAnalysisResults_weighted_witness :
  aiProbability (combineAnalysisResults no_text (score (of_Z 40) (of_Z 70))
                   (score (of_Z 80) (of_Z 90))) = of_Z 68
  /\ confidence (combineAnalysisResults no_text (score (of_Z 40) (of_Z 70))
                   (score (of_Z 80) (of_Z 90))) = of_Z 84.
Proof.
  pose proof (combineAnalysisResults_weighted no_text (score (of_Z 40) (of_Z 70))
                (score (of_Z 80) (of_Z 90))) as H.
  cbv zeta in H. destruct H as (_ & _ & _ & _ & _ & H).
  apply H; reflexivity.
Defined.

(* ===================================================================== *)
(** * The combiner: the range of the weighted score *)
(* ===================================================================== *)

Section CombinerRange.

Variable Number_toString : number -> jsstring.

(** C4 (amended).  The combiner applies no clamp.  When the aiProbability
    of both results is a number between 0 and 100, the returned
    aiProbability lies between 0 and 100; the same holds for confidence. *)
Theorem combineAnalysisResults_within (embeddingResult completionResult : RemoteScore) :
  let r := combineAnalysisResults Number_toString embeddingResult completionResult in
  (is_number (aiProbability embeddingResult) = true ->
   is_number (aiProbability completionResult) = true ->
   within_0_100 (aiProbability embeddingResult) = true ->
   within_0_100 (aiProbability completionResult) = true ->
   within_0_100 (aiProbability r) = true)
  /\ (is_number (confidence embeddingResult) = true ->
      is_number (confidence completionResult) = true ->
      within_0_100 (confidence embeddingResult) = true ->
      within_0_100 (confidence completionResult) = true ->
      within_0_100 (confidence r) = true).
Proof.
  cbv zeta. unfold combineAnalysisResults, embeddingWeight, completionWeight.
  cbn [aiProbability confidence]. split; intros; now apply weighted_within.
Qed.

Lemma same_number_eq (x y : number) : same_number x y = true -> x = y.
Proof.
  destruct x as [a|a| |a m e], y as [b|b| |b m' e']; cbn; try discriminate;
    try reflexivity.
  - intros H. apply eqb_prop in H. now subst.
  - intros H. apply eqb_prop in H. now subst.
  - intros H. apply andb_true_iff in H. destruct H as [H He].
    apply andb_true_iff in H. destruct H as [Hs Hm].
    apply eqb_prop in Hs. apply Pos.eqb_eq in Hm. apply Z.eqb_eq in He. now subst.
Qed.

(** The weighted score of two integers from 0 to 100 is an integer between
    them: all the pairs are evaluated. *)
Lemma weighted_between_spec (a b : Z) :
  0 <= a <= 100 -> 0 <= b <= 100 ->
  exists n, Math_round (add (mul (of_Z a) embeddingWeight) (mul (of_Z b) completionWeight))
            = of_Z n
            /\ Z.min a b <= n <= Z.max a b.
Proof.
  intros Ha Hb.
  assert (H : forallb (fun i => forallb (fun j => weighted_between (Z.of_nat i) (Z.of_nat j))
                                        (seq 0 101)) (seq 0 101) = true)
    by (vm_compute; reflexivity).
  rewrite forallb_forall in H.
  specialize (H (Z.to_nat a) ltac:(apply in_seq; lia)).
  rewrite forallb_forall in H.
  specialize (H (Z.to_nat b) ltac:(apply in_seq; lia)).
  rewrite !Z2Nat.id in H by lia.
  unfold weighted_between in H. cbv zeta in H.
  destruct (to_integer _) as [n|]; [|discriminate].
  apply andb_true_iff in H. destruct H as [H Hn].
  apply andb_true_iff in H. destruct H as [Hlo Hhi].
  exists n. split; [now apply same_number_eq|]. split; [now apply Z.leb_le|now apply Z.leb_le].
Qed.

(** C10 (amended).  When the aiProbability of both results is an integer
    from 0 to 100, the returned aiProbability is an integer between the
    smaller and the larger of the two, inclusive; the same holds for
    confidence. *)
Theorem combineAnalysisResults_between (embeddingResult completionResult : RemoteScore)
  (a b : Z) :
  0 <= a <= 100 -> 0 <= b <= 100 ->
  let r := combineAnalysisResults Number_toString embeddingResult completionResult in
  (aiProbability embeddingResult = of_Z a -> aiProbability completionResult = of_Z b ->
   exists n, aiProbability r = of_Z n /\ Z.min a b <= n <= Z.max a b)
  /\ (confidence embeddingResult = of_Z a -> confidence completionResult = of_Z b ->
      exists n, confidence r = of_Z n /\ Z.min a b <= n <= Z.max a b).
Proof.
  intros Ha Hb. cbv zeta. unfold combineAnalysisResults. cbn [aiProbability confidence].
  split; intros -> ->; now apply weighted_between_spec.
Qed.

End CombinerRange.

Lemma combineAnalysisResults_within_witness :
  within_0_100 (aiProbability (combineAnalysisResults no_text (score (of_Z 40) (of_Z 70))
                                 (score (of_Z 80) (of_Z 90)))) = true.
Proof.
  apply (combineAnalysisResults_within no_text (score (of_Z 40) (of_Z 70))
           (score (of_Z 80) (of_Z 90))); vm_compute; reflexivity.
Defined.

(** Completion values above the range come through: with 150 for the
    completion result and 0 for the embedding result the combiner returns
    105. *)
Lemma combineAnalysisResults_not_clamped :
  aiProbability (combineAnalysisResults no_text (score (of_Z 0) (of_Z 0))
                   (score (of_Z 150) (of_Z 150))) = of_Z 105
  /\ within_0_100 (aiProbability (combineAnalysisResults no_text (score (of_Z 0) (of_Z 0))
                                    (score (of_Z 150) (of_Z 150)))) = false.
Proof. split; vm_compute; reflexivity. Qed.

Lemma combineAnalysisResults_between_witness :
  exists n, aiProbability (combineAnalysisResults no_text (score (of_Z 40) (of_Z 70))
                             (score (of_Z 80) (of_Z 90))) = of_Z n
            /\ Z.min 40 80 <= n <= Z.max 40 80.
Proof.
  apply (combineAnalysisResults_between no_text (score (of_Z 40) (of_Z 70))
           (score (of_Z 80) (of_Z 90)) 40 80); [lia|lia|reflexivity|reflexivity].
Defined.

(** For the integer 2^52 + 1 in both results the combiner returns 2^52,
    which is less than both. *)
Lemma combineAnalysisResults_large_integers :
  let x := of_Z 4503599627370497 in
  let r := aiProbability (combineAnalysisResults no_text (score x x) (score x x)) in
  r = of_Z 4503599627370496 /\ lt r x = true.
Proof. split; vm_compute; reflexivity. Qed.

(* ===================================================================== *)
(** * The interpretation *)
(* ===================================================================== *)

Lemma startsWith_app (p s : jsstring) : startsWith (p ++ s) p = true.
Proof. induction p as [|a p IH]; [now destruct s|]. cbn. now rewrite N.eqb_refl. Qed.

(** C9 (amended).  The interpretation is a prefix, a summary and the notes.
    The summary is the human-leaning one when aiProbability is below 30, the
    mixed one when it is at least 30 and below 60, and the AI-leaning one
    otherwise, so also at exactly 60.  The text starts with the
    short-sample caveat exactly when the text has fewer than 15 words. *)
Theorem getEnhancedInterpretation_thresholds
  (analysisResult : RemoteScore) (textStats : TextStats) :
  let p := aiProbability analysisResult in
  let text := getEnhancedInterpretation analysisResult textStats in
  let prefix := if words textStats <? 15 then shortSampleCaveat else comprehensivePrefix in
  (exists summary,
      text = prefix ++ summary ++ notesOf textStats
      /\ (lt p (of_Z 30) = true -> summary = humanSummary)
      /\ (lt p (of_Z 30) = false -> lt p (of_Z 60) = true -> summary = mixedSummary)
      /\ (lt p (of_Z 30) = false -> lt p (of_Z 60) = false -> summary = aiSummary))
  /\ (p = of_Z 60 -> text = prefix ++ aiSummary ++ notesOf textStats)
  /\ (startsWith text shortSampleCaveat = true <-> words textStats < 15).
Proof.
  cbv zeta. unfold getEnhancedInterpretation. cbv zeta. rewrite <- !app_assoc.
  split; [|split].
  - exists (summaryOf (aiProbability analysisResult)).
    split; [reflexivity|]. unfold summaryOf.
    split; [intros ->; reflexivity|].
    split; [intros -> ->; reflexivity|intros -> ->; reflexivity].
  - intros ->. reflexivity.
  - split.
    + destruct (Z.ltb_spec (words textStats) 15) as [H|H]; [auto|].
      intros Hs. vm_compute in Hs. discriminate.
    + intros H. apply Z.ltb_lt in H. rewrite H. apply startsWith_app.
Qed.

Lemma getEnhancedInterpretation_thresholds_witness :
  getEnhancedInterpretation (score (of_Z 60) (of_Z 90)) (stats_of_words 20)
  = comprehensivePrefix ++ aiSummary ++ notesOf (stats_of_words 20).
Proof.
  pose proof (getEnhancedInterpretation_thresholds (score (of_Z 60) (of_Z 90))
                (stats_of_words 20)) as H.
  cbv zeta in H. destruct H as (_ & H & _). apply H. reflexivity.
Defined.

(** At aiProbability 60 the code gives the AI-leaning summary, where the
    thresholds of the specification give the mixed one. *)
Lemma getEnhancedInterpretation_at_60 :
  getEnhancedInterpretation (score (of_Z 60) (of_Z 90)) (stats_of_words 20)
  = comprehensivePrefix ++ aiSummary
  /\ spec_summaryOf (of_Z 60) = mixedSummary
  /\ summaryOf (of_Z 60) <> spec_summaryOf (of_Z 60).
Proof.
  split; [vm_compute; reflexivity|]. split; [vm_compute; reflexivity|].
  vm_compute. discriminate.
Qed.

(* ===================================================================== *)
(** * The embedding score *)
(* ===================================================================== *)

Section EmbeddingFacts.

Variable Number_toString : number -> jsstring.

(** C5 (amended).  With simAI and simHuman the cosine similarities of the
    text embedding against the two reference vectors, the returned
    aiProbability is round((simAI / (simAI + simHuman)) × 100) when the sum
    is greater than 0, and 50 otherwise (a zero, negative or NaN sum); the
    returned confidence is 70. *)
Theorem performEmbeddingAnalysis_probability (textEmbedding : list number) :
  let simAI := cosineSimilarity textEmbedding aiPattern in
  let simHuman := cosineSimilarity textEmbedding humanPattern in
  let sum := add simAI simHuman in
  exists r,
    performEmbeddingAnalysis Number_toString (Fulfilled textEmbedding) = Fulfilled r
    /\ confidence r = of_Z 70
    /\ (gt sum (of_Z 0) = true ->
        aiProbability r = Math_round (mul (div simAI sum) (of_Z 100)))
    /\ (gt sum (of_Z 0) = false -> aiProbability r = of_Z 50).
Proof.
  cbv zeta. eexists. split; [reflexivity|]. cbn [confidence aiProbability].
  split; [reflexivity|]. unfold similarityProbability.
  split; intros ->; reflexivity.
Qed.

End EmbeddingFacts.

Lemma performEmbeddingAnalysis_probability_witness :
  exists r,
    performEmbeddingAnalysis no_text (Fulfilled [of_Z 1; of_Z 2]) = Fulfilled r
    /\ aiProbability r = of_Z 50.
Proof.
  destruct (performEmbeddingAnalysis_probability no_text [of_Z 1; of_Z 2])
    as (r & Hr & _ & _ & H).
  exists r. split; [exact Hr|]. apply H. reflexivity.
Defined.

(** An embedding of 1536 components 1e308: the dot products overflow, both
    similarities and their sum are NaN.  The sum is not zero, so that the
    specification asks for round(100 × NaN) = NaN, and the code returns 50. *)
Lemma performEmbeddingAnalysis_NaN_sum :
  let v := replicate 1536 (of_Z (10 ^ 308)) in
  let simAI := cosineSimilarity v aiPattern in
  let simHuman := cosineSimilarity v humanPattern in
  add simAI simHuman = NaN
  /\ strict_eq (add simAI simHuman) (of_Z 0) = false
  /\ spec_similarityProbability simAI simHuman = NaN
  /\ (exists r, performEmbeddingAnalysis no_text (Fulfilled v) = Fulfilled r
                /\ aiProbability r = of_Z 50
                /\ aiProbability r <> spec_similarityProbability simAI simHuman).
Proof.
  cbv zeta. split; [vm_compute; reflexivity|]. split; [vm_compute; reflexivity|].
  split; [vm_compute; reflexivity|]. eexists. split; [reflexivity|].
  split; [vm_compute; reflexivity|]. vm_compute. discriminate.
Qed.

(* ===================================================================== *)
(** * Matching and scanning *)
(* ===================================================================== *)

Section Matching.

(** A successful [p+] has consumed a non-empty run of [p] and handed the
    rest to its continuation. *)
Lemma plus_loop_inv (p : char -> bool) (k : cont) (s x : jsstring) :
  plus_loop p k s = Some x ->
  exists pre c s', s = pre ++ c :: s' /\ forallb p (pre ++ [c]) = true
                   /\ k (Some c) s' = Some x.
Proof.
  induction s as [|c s IH]; cbn; [discriminate|].
  destruct (p c) eqn:Hp; [|discriminate].
  destruct (plus_loop p k s) as [y|] eqn:Hl.
  - intros [= ->]. destruct (IH eq_refl) as (pre & d & s' & -> & Hall & Hk).
    exists (c :: pre), d, s'. cbn. now rewrite Hp.
  - intros Hk. exists [], c, s. cbn. now rewrite Hp.
Qed.

(** Whatever a match hands to its continuation is a suffix of its input. *)
Lemma rmatch_inv (r : regex) :
  forall (prev : option char) (s : jsstring) (k : cont) (x : jsstring),
    rmatch r prev s k = Some x ->
    exists prev' pre s', s = pre ++ s' /\ k prev' s' = Some x.
Proof.
  induction r as [|p|r1 IH1 r2 IH2|r1 IH1 r2 IH2|r IH|p|]; intros prev s k x; cbn.
  - intros H. now exists prev, [], s.
  - destruct s as [|c s]; [discriminate|]. destruct (p c); [|discriminate].
    intros H. now exists (Some c), [c], s.
  - intros H. destruct (IH1 _ _ _ _ H) as (p1 & pre1 & s1 & -> & H1).
    destruct (IH2 _ _ _ _ H1) as (p2 & pre2 & s2 & -> & H2).
    exists p2, (pre1 ++ pre2), s2. now rewrite <- app_assoc.
  - destruct (rmatch r1 prev s k) as [y|] eqn:H1.
    + intros [= ->]. eauto.
    + eauto.
  - destruct (rmatch r prev s k) as [y|] eqn:H1.
    + intros [= ->]. eauto.
    + intros H. now exists prev, [], s.
  - intros H. destruct (plus_loop_inv _ _ _ _ H) as (pre & c & s' & -> & _ & Hk).
    exists (Some c), (pre ++ [c]), s'. now rewrite <- app_assoc.
  - destruct (xorb _ _); [|discriminate]. intros H. now exists prev, [], s.
Qed.

Lemma exec_here_suffix (r : regex) (prev : option char) (s rest : jsstring) :
  exec_here r prev s = Some rest -> exists pre, s = pre ++ rest.
Proof.
  intros H. destruct (rmatch_inv _ _ _ _ _ H) as (p' & pre & s' & -> & [= ->]). eauto.
Qed.

(** A literal character can only match at the head of the input. *)
Lemma chr_inv (a : ascii) (prev : option char) (s : jsstring) (k : cont) (x : jsstring) :
  rmatch (chr a) prev s k = Some x -> exists s', s = N_of_ascii a :: s'.
Proof.
  cbn. destruct s as [|c s]; [discriminate|].
  destruct (N.eqb_spec (N_of_ascii a) c) as [->|]; [eauto|discriminate].
Qed.

(** No match of [r1 a r2] in an input without the character [a]. *)
Lemma needs_char (a : ascii) (r1 r2 : regex) (prev : option char) (s : jsstring) (k : cont) :
  N_of_ascii a ∉ s -> rmatch (Seq r1 (Seq (chr a) r2)) prev s k = None.
Proof.
  intros Hnot. destruct (rmatch _ _ _ _) as [x|] eqn:H; [|reflexivity].
  exfalso. cbn [rmatch] in H.
  destruct (rmatch_inv _ _ _ _ _ H) as (p1 & pre & s1 & -> & H1).
  destruct (chr_inv a p1 s1 _ _ H1) as (s2 & ->).
  apply Hnot. set_solver.
Qed.

Lemma search_none (r : regex) (s : jsstring) :
  (forall prev t, (forall c, c ∈ t -> c ∈ s) -> exec_here r prev t = None) ->
  test r s = false.
Proof.
  unfold test. generalize (@None char). intros prev H.
  assert (Hs : forall c, c ∈ s -> c ∈ s) by auto. revert prev Hs.
  generalize s at 1 3. intros t. induction t as [|c t IH]; intros prev Hs; cbn.
  - now rewrite H.
  - rewrite H by assumption. apply IH. intros d Hd. apply Hs. set_solver.
Qed.

Lemma exec_here_needs (a : ascii) (r r1 r2 : regex) :
  (forall prev s k, rmatch r prev s k = rmatch (Seq r1 (Seq (chr a) r2)) prev s k) ->
  forall s, N_of_ascii a ∉ s -> test r s = false.
Proof.
  intros Hr s Hnot. apply search_none. intros prev t Ht.
  unfold exec_here. rewrite Hr. apply needs_char. intros Hin. apply Hnot, Ht, Hin.
Qed.

Lemma no_url (s : jsstring) : N_of_ascii "/" ∉ s -> test re_url s = false.
Proof.
  apply (exec_here_needs "/" re_url
           (Seq (word chr "http") (Seq (Opt (chr "s")) (chr ":")))
           (Seq (chr "/") (Plus (fun c => negb (is_space c))))).
  reflexivity.
Qed.

Lemma no_email (s : jsstring) : N_of_ascii "@" ∉ s -> test re_email s = false.
Proof.
  apply (exec_here_needs "@" re_email (Plus is_address_char)
           (Seq (Plus is_address_char) (Seq (chr ".") (Plus is_word)))).
  reflexivity.
Qed.

(** ** Global scans *)

Lemma plus_loop_accept (p : char -> bool) (c : char) (s : jsstring) :
  p c = true ->
  exists rest, plus_loop p accept (c :: s) = Some rest /\ (length rest <= length s)%nat.
Proof.
  revert c. induction s as [|d s IH]; intros c Hp; cbn; rewrite Hp.
  - exists []. split; [reflexivity|cbn; lia].
  - destruct (p d) eqn:Hd.
    + destruct (IH d Hd) as (rest & Hr & Hlen). cbn in Hr. rewrite Hd in Hr.
      rewrite Hr. exists rest. split; [reflexivity|cbn; lia].
    + exists (d :: s). split; [reflexivity|cbn; lia].
Qed.

(** The units that a scan keeps are units of the input. *)
Lemma scan_kept_in (r : regex) (fuel : nat) :
  forall prev s c, In (Kept c) (scan fuel r prev s) -> c ∈ s.
Proof.
  induction fuel as [|fuel IH]; intros prev s c; cbn [scan In]; [tauto|].
  destruct (exec_here r prev s) as [rest|] eqn:He; destruct s as [|d s'].
  - cbn [In]. intros [H|H]; [discriminate|destruct H].
  - destruct (exec_here_suffix _ _ _ _ He) as (pre & Hpre).
    destruct (length rest <? length (d :: s'))%nat.
    + cbn [In]. intros [H|H]; [discriminate|]. apply IH in H. rewrite Hpre. set_solver.
    + cbn [In]. intros [H|[H|H]]; [discriminate|injection H as ->; set_solver|].
      apply IH in H. set_solver.
  - cbn [In]. tauto.
  - cbn [In]. intros [H|H]; [injection H as ->; set_solver|]. apply IH in H. set_solver.
Qed.

(** A scan for [p+] keeps no unit of the class [p]. *)
Lemma scan_plus_kept (p : char -> bool) (fuel : nat) :
  forall prev s c, In (Kept c) (scan fuel (Plus p) prev s) -> p c = false.
Proof.
  induction fuel as [|fuel IH]; intros prev s c; cbn [scan In]; [tauto|].
  unfold exec_here. cbn [rmatch].
  destruct s as [|d s']; [cbn; tauto|].
  destruct (p d) eqn:Hd.
  - destruct (plus_loop_accept p d s' Hd) as (rest & -> & Hlen).
    replace (length rest <? length (d :: s'))%nat with true
      by (symmetry; apply Nat.ltb_lt; cbn; lia).
    cbn [In]. intros [H|H]; [discriminate|]. eauto.
  - cbn [plus_loop]. rewrite Hd. cbn [In].
    intros [H|H]; [injection H as ->; assumption|eauto].
Qed.

Lemma replace_all_deletes (r : regex) (s : jsstring) (c : char) :
  c ∈ replace_all r [] s -> c ∈ s.
Proof.
  unfold replace_all, pieces. generalize (S (length s)) (@None char).
  intros fuel prev. rewrite list_elem_of_In, in_concat.
  intros (l & Hl & Hc). apply in_map_iff in Hl. destruct Hl as ([m|d] & <- & Hp).
  - destruct Hc.
  - destruct Hc as [<-|Hc]; [|destruct Hc]. eapply scan_kept_in, Hp.
Qed.

Lemma replace_whitespace_spaces (s : jsstring) (c : char) :
  c ∈ replace_all re_whitespace [space] s -> is_space c = true -> c = space.
Proof.
  unfold replace_all, pieces. generalize (S (length s)) (@None char).
  intros fuel prev. rewrite list_elem_of_In, in_concat.
  intros (l & Hl & Hc). apply in_map_iff in Hl. destruct Hl as ([m|d] & <- & Hp).
  - destruct Hc as [<-|Hc]; [|destruct Hc]. reflexivity.
  - destruct Hc as [<-|Hc]; [|destruct Hc]. apply scan_plus_kept in Hp. congruence.
Qed.

Lemma scan_class (p : char -> bool) (s : jsstring) :
  forall fuel prev, (length s < fuel)%nat ->
    scan fuel (Cls p) prev s = map (fun c => if p c then Matched [c] else Kept c) s.
Proof.
  induction s as [|c s IH]; intros fuel prev Hf; (destruct fuel as [|fuel]; [cbn in Hf; lia|]).
  - reflexivity.
  - cbn [scan map]. unfold exec_here. cbn [rmatch]. unfold accept.
    destruct (p c); cbv beta iota.
    + replace (length s <? length (c :: s))%nat with true
        by (symmetry; apply Nat.ltb_lt; cbn; lia).
      replace (length (c :: s) - length s)%nat with 1%nat by (cbn; lia). cbn [take].
      f_equal. apply IH. cbn in Hf. lia.
    + f_equal. apply IH. cbn in Hf. lia.
Qed.

(** Replacing a class by nothing is a filter. *)
Lemma replace_class_filter (p : char -> bool) (s : jsstring) :
  replace_all (Cls p) [] s = List.filter (fun c => negb (p c)) s.
Proof.
  unfold replace_all, pieces. rewrite scan_class by lia.
  induction s as [|c s IH]; [reflexivity|]. cbn. destruct (p c); cbn; now rewrite IH.
Qed.

Lemma drop_while_in (p : char -> bool) (s : jsstring) (c : char) :
  c ∈ drop_while p s -> c ∈ s.
Proof.
  induction s as [|d s IH]; cbn; [auto|]. destruct (p d); set_solver.
Qed.

Lemma trim_in (s : jsstring) (c : char) : c ∈ trim s -> c ∈ s.
Proof.
  unfold trim, trimEnd, trimStart. rewrite list_elem_of_In, <- in_rev, <- list_elem_of_In.
  intros H. apply drop_while_in in H.
  rewrite list_elem_of_In, <- in_rev, <- list_elem_of_In in H.
  now apply drop_while_in in H.
Qed.

End Matching.

(* ===================================================================== *)
(** * The text preprocessor *)
(* ===================================================================== *)

Lemma forallb_filter_self {A : Type} (p : A -> bool) (l : list A) :
  forallb p (List.filter p l) = true.
Proof.
  induction l as [|a l IH]; [reflexivity|]. cbn. destruct (p a) eqn:Hp; [|assumption].
  cbn. now rewrite Hp.
Qed.

Lemma preprocess_last_step (s : jsstring) :
  replace_all re_special [] s = List.filter is_kept s.
Proof.
  unfold re_special. rewrite replace_class_filter.
  induction s as [|c s IH]; [reflexivity|]. cbn. rewrite negb_involutive, IH. reflexivity.
Qed.

(** What does hold of every output.  The empty input gives the empty
    output.  For every input the output has no character outside the kept
    class (word characters, white space and the punctuation
    . , ! ? ; : ' ( ) - and the double quote), hence no URL and no email
    address, and every white-space character left in it is a plain
    space. *)
Theorem preprocessText_output :
  preprocessText [] = []
  /\ forall text : jsstring,
      let out := preprocessText text in
      forallb is_kept out = true
      /\ test re_url out = false
      /\ test re_email out = false
      /\ forallb (fun c => implb (is_space c) (c =? space)%N) out = true.
Proof.
  split; [reflexivity|]. intros [|c0 text]; [cbn; auto|].
  unfold preprocessText. cbv zeta.
  set (p1 := trim (replace_all re_whitespace [space] (c0 :: text))).
  set (p3 := replace_all re_email [] (replace_all re_url [] p1)).
  rewrite preprocess_last_step.
  assert (Hkept : forallb is_kept (List.filter is_kept p3) = true)
    by apply forallb_filter_self.
  assert (Hnot : forall a : ascii, is_kept (N_of_ascii a) = false ->
                                   N_of_ascii a ∉ List.filter is_kept p3).
  { intros a Ha Hin. rewrite forallb_forall in Hkept.
    apply list_elem_of_In, Hkept in Hin. congruence. }
  split; [exact Hkept|]. split; [apply no_url, Hnot; reflexivity|].
  split; [apply no_email, Hnot; reflexivity|].
  apply forallb_forall. intros c Hc. apply filter_In in Hc. destruct Hc as [Hc _].
  apply list_elem_of_In in Hc. unfold p3 in Hc.
  do 2 apply replace_all_deletes in Hc. apply trim_in in Hc.
  destruct (is_space c) eqn:Hs; [|reflexivity]. cbn.
  apply N.eqb_eq. now apply (replace_whitespace_spaces (c0 :: text)).
Qed.

(** C6.  The output is not always normalised: the white space is collapsed
    and trimmed first, and the URLs, the addresses and the other characters
    are deleted afterwards, so that a deletion leaves the spaces around it.
    A URL or an address between two words leaves two spaces next to each
    other, a URL at the start leaves a leading space, and a deleted
    character at the end leaves a trailing one. *)
Theorem preprocessText_adjacent_spaces :
  preprocessText (str "a http://x b") = str "a  b"
  /\ whitespace_normalized (preprocessText (str "a http://x b")) = false
  /\ preprocessText (str "a b@c.de f") = str "a  f"
  /\ preprocessText (str "http://x a") = str " a"
  /\ preprocessText (str "a #") = str "a "
  /\ whitespace_normalized (str "a  f") = false
  /\ whitespace_normalized (str " a") = false
  /\ whitespace_normalized (str "a ") = false.
Proof. repeat split; vm_compute; reflexivity. Qed.

(* ===================================================================== *)
(** * Text statistics *)
(* ===================================================================== *)

Lemma split_cons (sep c : char) (s : jsstring) :
  split sep (c :: s) =
    if (c =? sep)%N then [] :: split sep s
    else (c :: hd [] (split sep s)) :: tl (split sep s).
Proof.
  cbn [split]. destruct (c =? sep)%N; [reflexivity|].
  destruct s as [|d s]; [reflexivity|]. cbn [split].
  destruct (d =? sep)%N; [reflexivity|]. now destruct (split sep s).
Qed.

Lemma split_not_nil (sep : char) (s : jsstring) : split sep s <> [].
Proof.
  destruct s as [|c s]; [discriminate|]. rewrite split_cons. now destruct (c =? sep)%N.
Qed.

(** A text without words consists of spaces. *)
Lemma no_words_spaces (text : jsstring) :
  count_longer_than 0 text = 0 -> text = spaces (length text).
Proof.
  unfold count_longer_than. intros H.
  assert (H0 : List.filter (fun word => (0 <? length word)%nat) (split space text) = [])
    by (destruct (List.filter _ _); [reflexivity|cbn in H; lia]).
  clear H. induction text as [|c text IH]; [reflexivity|].
  rewrite split_cons in H0. destruct (N.eqb_spec c space) as [->|Hc].
  - cbn in H0. cbn. f_equal. apply IH, H0.
  - cbn in H0. discriminate.
Qed.

Lemma split_spaces (n : nat) : split space (spaces n) = replicate (S n) [].
Proof.
  induction n as [|n IH]; [reflexivity|]. unfold spaces in *. cbn [replicate].
  rewrite split_cons, N.eqb_refl, IH. reflexivity.
Qed.

Lemma count_longer_spaces (k n : nat) : count_longer_than k (spaces n) = 0.
Proof.
  unfold count_longer_than. rewrite split_spaces.
  induction (S n) as [|m IH]; [reflexivity|]. cbn. exact IH.
Qed.

(** When a pattern matches nowhere in a run of spaces, the scan keeps them
    all. *)
Lemma scan_spaces (r : regex) :
  (forall prev t, prev = None \/ prev = Some space -> exec_here r prev (spaces t) = None) ->
  forall n fuel prev, prev = None \/ prev = Some space -> (n < fuel)%nat ->
    scan fuel r prev (spaces n) = map Kept (spaces n).
Proof.
  intros Hr. induction n as [|n IH]; intros fuel prev Hp Hf;
    (destruct fuel as [|fuel]; [lia|]); pose proof (fun t => Hr prev t Hp) as H0;
    unfold spaces in *; cbn [scan replicate map].
  - specialize (H0 0%nat). cbn [replicate] in H0. now rewrite H0.
  - specialize (H0 (S n)). cbn [replicate] in H0. rewrite H0.
    f_equal. apply IH; [auto|lia].
Qed.

Lemma match_count_spaces (r : regex) (n : nat) :
  (forall prev t, prev = None \/ prev = Some space -> exec_here r prev (spaces t) = None) ->
  match_count r (spaces n) = 0.
Proof.
  intros Hr. unfold match_count, pieces. rewrite scan_spaces; [|assumption|auto|].
  - induction (spaces n) as [|c s IH]; [reflexivity|]. exact IH.
  - unfold spaces. rewrite length_replicate. lia.
Qed.

Lemma no_sentence_end_in_spaces (prev : option char) (t : nat) :
  exec_here re_sentence_end prev (spaces t) = None.
Proof. now destruct t. Qed.

Lemma no_pronoun_in_spaces (prev : option char) (t : nat) :
  prev = None \/ prev = Some space -> exec_here re_pronoun prev (spaces t) = None.
Proof. intros [->| ->]; now destruct t. Qed.

(** C3 (amended).  For every input without words (no non-empty token
    between spaces) the statistics have avgWordsPerSentence, longWords,
    personalPronouns and lexicalDiversity equal to 0; the sentence count is
    0 for the empty string and 1 for every other such input. *)
Theorem stats_without_words (text : jsstring) :
  let stats := calculateEnhancedTextStats text in
  words stats = 0 ->
  sentences stats = (match text with [] => 0 | _ :: _ => 1 end)
  /\ avgWordsPerSentence stats = of_Z 0
  /\ longWords stats = 0
  /\ personalPronouns stats = 0
  /\ lexicalDiversity stats = of_Z 0.
Proof.
  destruct text as [|c text]; [cbn; auto|].
  cbv zeta. unfold calculateEnhancedTextStats. cbn [words sentences avgWordsPerSentence
    longWords personalPronouns lexicalDiversity].
  intros Hw. rewrite Hw. pose proof (no_words_spaces _ Hw) as Hs. rewrite Hs.
  rewrite count_longer_spaces.
  rewrite !match_count_spaces
    by (intros; auto using no_sentence_end_in_spaces, no_pronoun_in_spaces).
  repeat split; vm_compute; reflexivity.
Qed.

(** For the text of one space the sentence count is 1 and the readability
    score is Infinity: the syllable count 1 is divided by the word count
    0. *)
Lemma stats_of_one_space :
  words (calculateEnhancedTextStats (str " ")) = 0
  /\ sentences (calculateEnhancedTextStats (str " ")) = 1
  /\ readabilityScore (calculateEnhancedTextStats (str " ")) = Infinity.
Proof. repeat split; vm_compute; reflexivity. Qed.

Lemma stats_without_words_witness :
  sentences (calculateEnhancedTextStats (str "   ")) = 1
  /\ avgWordsPerSentence (calculateEnhancedTextStats (str "   ")) = of_Z 0
  /\ longWords (calculateEnhancedTextStats (str "   ")) = 0
  /\ personalPronouns (calculateEnhancedTextStats (str "   ")) = 0
  /\ lexicalDiversity (calculateEnhancedTextStats (str "   ")) = of_Z 0.
Proof. apply (stats_without_words (str "   ")). vm_compute. reflexivity. Defined.

(** C2.  The text of two words with two spaces between them, which is what
    the preprocessor makes of two words around a URL, has three distinct
    tokens (the empty one among them) for two words: the lexical diversity
    is 1.5, outside the interval from 0 to 1. *)
Theorem lexicalDiversity_above_one :
  let stats := calculateEnhancedTextStats (str "a  b") in
  preprocessText (str "a http://x b") = str "a  b"
  /\ words stats = 2
  /\ sentences stats = 1
  /\ distinct (split space (toLowerCase (str "a  b"))) = 3
  /\ lexicalDiversity stats = literal 3 2
  /\ gt (lexicalDiversity stats) (of_Z 1) = true.
Proof. cbv zeta. repeat split; vm_compute; reflexivity. Qed.

(* ===================================================================== *)
(** * The batch loop *)
(* ===================================================================== *)

Section PromiseFacts.

Context {A : Type}.
Implicit Types (promises : list A) (values : list (option A)) (order : list nat).

Lemma settle_all promises order :
  forall values,
    length values = length promises ->
    length (foldl (settle promises) values order) = length promises
    /\ forall j v, promises !! j = Some v ->
                   j ∈ order \/ values !! j = Some (Some v) ->
                   foldl (settle promises) values order !! j = Some (Some v).
Proof.
  induction order as [|i order IH]; intros values Hlen; cbn [foldl].
  - split; [assumption|]. intros j v _ [H|H]; [|assumption]. set_solver.
  - assert (Hlen' : length (settle promises values i) = length promises).
    { unfold settle. destruct (promises !! i); [now rewrite length_insert|assumption]. }
    destruct (IH _ Hlen') as [Hl Hv]. split; [assumption|].
    intros j v Hj Hin. apply Hv; [assumption|].
    destruct (decide (j = i)) as [->|Hne].
    + right. unfold settle. rewrite Hj. apply list_lookup_insert_eq.
      rewrite Hlen. apply lookup_lt_is_Some. eauto.
    + destruct Hin as [Hin|Hin];
        [left; apply elem_of_cons in Hin; destruct Hin; [congruence|assumption]|right].
      unfold settle. destruct (promises !! i); [|assumption].
      now rewrite list_lookup_insert_ne by auto.
Qed.

(** Once every promise has settled, in whatever order, [Promise.all]
    delivers the values in the order of the promises. *)
Lemma Promise_all_settled promises order :
  (forall j, (j < length promises)%nat -> j ∈ order) ->
  Promise_all order promises = Some promises.
Proof.
  intros Hall. unfold Promise_all. fold (settle promises).
  destruct (settle_all promises order (replicate (length promises) None))
    as [Hl Hv]; [apply length_replicate|].
  set (r := foldl _ _ _) in *.
  assert (Hr : r = Some <$> promises).
  { apply list_eq. intros j. rewrite list_lookup_fmap.
    destruct (promises !! j) as [v|] eqn:Hj.
    - apply Hv; [assumption|]. left. apply Hall, lookup_lt_is_Some. eauto.
    - cbn. apply lookup_ge_None. rewrite Hl. now apply lookup_ge_None. }
  rewrite Hr. now apply mapM_fmap_Some.
Qed.

Lemma settle_untouched promises order (j : nat) :
  j ∉ order -> forall values, foldl (settle promises) values order !! j = values !! j.
Proof.
  induction order as [|i order IH]; intros Hj values; cbn [foldl]; [reflexivity|].
  rewrite IH by set_solver. unfold settle. destruct (promises !! i); [|reflexivity].
  apply list_lookup_insert_ne. set_solver.
Qed.

(** If one of the promises never settles, [Promise.all] never delivers. *)
Lemma Promise_all_pending promises order (j : nat) :
  (j < length promises)%nat -> j ∉ order -> Promise_all order promises = None.
Proof.
  intros Hlt Hj. unfold Promise_all. fold (settle promises).
  apply mapM_None, Exists_exists. exists None. split; [|reflexivity].
  apply list_elem_of_lookup. exists j. rewrite settle_untouched by assumption.
  now apply lookup_replicate_2.
Qed.

End PromiseFacts.

Section GroupFacts.

Context {A : Type}.
Implicit Types l : list A.

Lemma groups_of_lookup (fuel : nat) :
  forall l (k : nat), (length l <= fuel)%nat ->
    groups_of fuel l !! k =
      if (batchSize * k <? length l)%nat then Some (take batchSize (drop (batchSize * k) l))
      else None.
Proof.
  unfold batchSize.
  induction fuel as [|fuel IH]; intros l k Hl.
  - destruct l; [|cbn in Hl; lia]. cbn [groups_of length]. rewrite lookup_nil.
    destruct (Nat.ltb_spec (3 * k) 0); [lia|reflexivity].
  - destruct l as [|a l].
    { cbn [groups_of length]. rewrite lookup_nil.
      destruct (Nat.ltb_spec (3 * k) 0); [lia|reflexivity]. }
    cbn [groups_of]. unfold batchSize. destruct k as [|k].
    + reflexivity.
    + cbn [lookup list_lookup]. rewrite IH by (rewrite length_drop; cbn in *; lia).
      rewrite length_drop, drop_drop.
      replace (3 + 3 * k)%nat with (3 * S k)%nat by lia.
      destruct (Nat.ltb_spec (3 * k) (length (a :: l) - 3));
        destruct (Nat.ltb_spec (3 * S k) (length (a :: l))); try lia; reflexivity.
Qed.

Lemma groups_lookup l (k : nat) :
  groups l !! k =
    if (batchSize * k <? length l)%nat then Some (take batchSize (drop (batchSize * k) l))
    else None.
Proof. apply groups_of_lookup. reflexivity. Qed.

Lemma concat_groups_of (fuel : nat) :
  forall l, (length l <= fuel)%nat -> concat (groups_of fuel l) = l.
Proof.
  induction fuel as [|fuel IH]; intros l Hl.
  - destruct l; [reflexivity|cbn in Hl; lia].
  - destruct l as [|a l]; [reflexivity|]. cbn [groups_of concat].
    rewrite IH by (rewrite length_drop; cbn in *; lia). apply take_drop.
Qed.

(** The groups are the input cut into slices of three; only the last one
    may be shorter. *)
Lemma groups_shape l :
  concat (groups l) = l
  /\ forall (k : nat) g, groups l !! k = Some g ->
       (1 <= length g <= batchSize)%nat
       /\ ((S k < length (groups l))%nat -> length g = batchSize).
Proof.
  split; [now apply concat_groups_of|].
  intros k g. rewrite groups_lookup. unfold batchSize.
  destruct (Nat.ltb_spec (3 * k) (length l)) as [Hk|Hk]; [|discriminate].
  intros [= <-]. rewrite length_take, length_drop. split; [lia|].
  intros Hlast. apply lookup_lt_is_Some in Hlast. rewrite groups_lookup in Hlast.
  unfold batchSize in Hlast.
  destruct (Nat.ltb_spec (3 * S k) (length l)); [lia|]. now destruct Hlast.
Qed.

Lemma groups_of_seven l : length l = 7%nat -> length <$> groups l = [3; 3; 1]%nat.
Proof.
  intros H. do 8 (destruct l as [|? l]; try discriminate). reflexivity.
Qed.

End GroupFacts.

Section BatchFacts.

Context {Analysis : Type}.
Variable analyze : nat -> jsstring -> jsstring -> outcome Analysis.
Variable completion_order : nat -> list nat.
Variable texts : list jsstring.
Variable apiKey : jsstring.

Let promise_for := batchPromise analyze apiKey.
Let loop := batch_loop analyze completion_order.

Lemma promise_for_nonblank (index : nat) (text : jsstring) :
  promise_for index text = if nonblank text then Some (item_for analyze apiKey index text) else None.
Proof.
  unfold promise_for, batchPromise, nonblank, item_for. now destruct (trim text).
Qed.

Lemma loop_step (fuel i : nat) (results : list (BatchItem Analysis)) :
  loop (S fuel) texts apiKey i results =
    if (i <? length texts)%nat then
      match Promise_all (completion_order i)
              (imap (fun j text => promise_for (i + j) text)
                 (take batchSize (drop i texts))) with
      | Some batchResults =>
          loop fuel texts apiKey (i + batchSize)%nat (results ++ omap id batchResults)
      | None => None
      end
    else Some results.
Proof. reflexivity. Qed.

Lemma loop_from (fuel : nat) :
  all_settle completion_order texts ->
  forall (k : nat) (results : list (BatchItem Analysis)),
    (length texts <= fuel + batchSize * k)%nat ->
    loop (S fuel) texts apiKey (batchSize * k)%nat results
    = Some (results ++ omap id (imap (fun j text => promise_for (batchSize * k + j) text)
                                     (drop (batchSize * k) texts))).
Proof.
  intros Hsettle.
  induction fuel as [|fuel IH]; intros k results Hlen; rewrite loop_step;
    unfold all_settle, batchSize in *.
  - replace (3 * k <? length texts)%nat with false
      by (symmetry; apply Nat.ltb_ge; lia).
    rewrite drop_ge by lia. cbn. now rewrite app_nil_r.
  - destruct (Nat.ltb_spec (3 * k) (length texts)) as [Hk|Hk].
    + rewrite Promise_all_settled.
      * replace (3 * k + 3)%nat with (3 * S k)%nat by lia.
        rewrite IH by lia. f_equal. rewrite <- app_assoc. f_equal.
        rewrite <- omap_app. f_equal.
        rewrite <- (take_drop 3 (drop (3 * k) texts)) at 2.
        rewrite imap_app, drop_drop. f_equal.
        replace (3 * k + 3)%nat with (3 * S k)%nat by lia.
        destruct (Nat.le_gt_cases (length texts) (3 * S k)) as [Hs|Hs].
        { now rewrite drop_ge by lia. }
        apply imap_ext. intros j t _. cbn. f_equal.
        rewrite length_take, length_drop. lia.
      * rewrite length_imap. apply (Hsettle k). rewrite groups_lookup.
        unfold batchSize.
        now replace (3 * k <? length texts)%nat with true
          by (symmetry; apply Nat.ltb_lt; lia).
    + rewrite drop_ge by lia. cbn. now rewrite app_nil_r.
Qed.

Lemma analyzeBatch_result :
  all_settle completion_order texts ->
  analyzeBatchWithEnhancedOpenAI analyze completion_order texts apiKey
  = Some (omap id (imap promise_for texts)).
Proof.
  intros Hsettle. unfold analyzeBatchWithEnhancedOpenAI.
  pose proof (loop_from (length texts) Hsettle 0 []) as H.
  unfold loop in H. change (batchSize * 0)%nat with 0%nat in H.
  rewrite H by lia. reflexivity.
Qed.

Lemma items_texts (l : list jsstring) :
  forall index : nat -> nat,
    item_text <$> omap id (imap (fun j text => promise_for (index j) text) l)
    = List.filter nonblank l.
Proof.
  induction l as [|t l IH]; intros index; [reflexivity|].
  cbn [imap omap List.filter]. rewrite promise_for_nonblank.
  specialize (IH (index ∘ S)). unfold compose in *.
  destruct (nonblank t); cbn.
  - f_equal; [|exact IH]. unfold item_for. now destruct (analyze _ _ _).
  - exact IH.
Qed.

Lemma item_at_slot (index : nat) (text : jsstring) :
  texts !! index = Some text -> nonblank text = true ->
  omap id (imap promise_for texts) !! slot texts index = Some (item_for analyze apiKey index text).
Proof.
  intros Ht Hb.
  replace (imap promise_for texts)
    with (imap promise_for (take index texts ++ text :: drop (S index) texts))
    by (now rewrite take_drop_middle).
  rewrite imap_app, omap_app.
  assert (Hlen : length (omap id (imap promise_for (take index texts))) = slot texts index).
  { unfold slot. rewrite <- (items_texts _ id). now rewrite length_fmap. }
  rewrite lookup_app_r by lia. rewrite Hlen, Nat.sub_diag.
  cbn [imap omap]. rewrite promise_for_nonblank, Hb. cbn.
  do 2 f_equal. apply lookup_lt_Some in Ht. rewrite length_take. lia.
Qed.


Lemma items_by_group (fuel : nat) :
  forall (l : list jsstring) (k0 : nat), (length l <= fuel)%nat ->
    omap id (imap (fun j text => promise_for (batchSize * k0 + j) text) l)
    = concat (imap (fun k g =>
                      omap id (imap (fun j text => promise_for (batchSize * (k0 + k) + j) text) g))
                   (groups_of fuel l)).
Proof.
  unfold batchSize.
  induction fuel as [|fuel IH]; intros l k0 Hl.
  - destruct l; [reflexivity|cbn in Hl; lia].
  - destruct l as [|a l]; [reflexivity|].
    transitivity (omap id (imap (fun j text => promise_for (3 * k0 + j) text)
                                 (take 3 (a :: l) ++ drop 3 (a :: l))));
      [now rewrite take_drop|].
    cbn [groups_of]. rewrite imap_cons. cbn [concat]. unfold batchSize.
    rewrite imap_app, omap_app. f_equal.
    + apply (f_equal (omap id)), imap_ext. intros j t _. cbn. do 2 f_equal. lia.
    + destruct (Nat.le_gt_cases (length (a :: l)) 3) as [Hs|Hs].
      { rewrite (drop_ge (a :: l)) by lia. now destruct fuel. }
      rewrite length_take, Nat.min_l by lia.
      specialize (IH (drop 3 (a :: l)) (S k0)).
      rewrite length_drop in IH. specialize (IH ltac:(cbn in *; lia)).
      etransitivity; [|etransitivity; [exact IH|]].
      * apply (f_equal (omap id)), imap_ext. intros j t _. cbn. f_equal. lia.
      * f_equal. apply imap_ext. intros k g _. cbn.
        apply (f_equal (omap id)), imap_ext. intros j t _. cbn. f_equal. lia.
Qed.

Lemma loop_blocked (k j : nat) (g : list jsstring) :
  groups texts !! k = Some g -> (j < length g)%nat ->
  j ∉ completion_order (batchSize * k)%nat ->
  forall (d k' : nat), (k' + d = k)%nat ->
    forall (fuel : nat) (results : list (BatchItem Analysis)),
      batch_loop analyze completion_order fuel texts apiKey (batchSize * k')%nat results = None.
Proof.
  intros Hg Hj Hnot. rewrite groups_lookup in Hg.
  destruct (Nat.ltb_spec (batchSize * k) (length texts)) as [Hk|Hk]; [|discriminate].
  injection Hg as <-.
  induction d as [|d IH]; intros k' Hd [|fuel] results; try reflexivity;
    rewrite loop_step.
  - replace k' with k in * by lia.
    replace (batchSize * k <? length texts)%nat with true
      by (symmetry; now apply Nat.ltb_lt).
    rewrite (Promise_all_pending _ _ j); [reflexivity| |assumption].
    now rewrite length_imap.
  - replace (batchSize * k' <? length texts)%nat with true
      by (symmetry; apply Nat.ltb_lt; unfold batchSize in *; lia).
    destruct (Promise_all _ _); [|reflexivity].
    replace (batchSize * k' + batchSize)%nat with (batchSize * S k')%nat
      by (unfold batchSize; lia).
    apply IH. lia.
Qed.

Lemma round_of_group (k : nat) (g : list jsstring) :
  groups texts !! k = Some g ->
  forall (fuel : nat) (results : list (BatchItem Analysis)),
    loop (S fuel) texts apiKey (batchSize * k)%nat results
    = match Promise_all (completion_order (batchSize * k)%nat)
              (imap (fun j text => promise_for (batchSize * k + j)%nat text) g) with
      | Some batchResults =>
          loop fuel texts apiKey (batchSize * S k)%nat (results ++ omap id batchResults)
      | None => None
      end.
Proof.
  rewrite groups_lookup.
  destruct (Nat.ltb_spec (batchSize * k) (length texts)) as [Hk|Hk]; [|discriminate].
  intros [= <-] fuel results. unfold loop. rewrite loop_step.
  replace (batchSize * k <? length texts)%nat with true by (symmetry; now apply Nat.ltb_lt).
  replace (batchSize * k + batchSize)%nat with (batchSize * S k)%nat
    by (unfold batchSize; lia).
  reflexivity.
Qed.

Lemma after_last_group (k : nat) :
  groups texts !! k = None ->
  forall (fuel : nat) (results : list (BatchItem Analysis)),
    loop (S fuel) texts apiKey (batchSize * k)%nat results = Some results.
Proof.
  rewrite groups_lookup.
  destruct (Nat.ltb_spec (batchSize * k) (length texts)) as [Hk|Hk]; [discriminate|].
  intros _ fuel results. unfold loop. rewrite loop_step.
  now replace (batchSize * k <? length texts)%nat with false
    by (symmetry; now apply Nat.ltb_ge).
Qed.

Lemma seven_in_three_rounds :
  length texts = 7%nat ->
  analyzeBatchWithEnhancedOpenAI analyze completion_order texts apiKey
  = (Promise_all (completion_order 0)
       (imap (fun j text => promise_for (0 + j) text) (take 3 texts)) ≫= fun first =>
     Promise_all (completion_order 3)
       (imap (fun j text => promise_for (3 + j) text) (take 3 (drop 3 texts))) ≫= fun second =>
     Promise_all (completion_order 6)
       (imap (fun j text => promise_for (6 + j) text) (drop 6 texts)) ≫= fun third =>
     Some (omap id first ++ omap id second ++ omap id third)).
Proof.
  intros H7. unfold analyzeBatchWithEnhancedOpenAI. rewrite H7.
  assert (Hg : forall k, (k < 3)%nat ->
            groups texts !! k = Some (take 3 (drop (3 * k) texts))).
  { intros k Hk. rewrite groups_lookup. unfold batchSize.
    now replace (3 * k <? length texts)%nat with true
      by (symmetry; apply Nat.ltb_lt; lia). }
  assert (Hn : groups texts !! 3%nat = None).
  { rewrite groups_lookup. unfold batchSize.
    now replace (3 * 3 <? length texts)%nat with false
      by (symmetry; apply Nat.ltb_ge; lia). }
  pose proof (round_of_group 0 _ (Hg 0%nat ltac:(lia))) as R0.
  pose proof (round_of_group 1 _ (Hg 1%nat ltac:(lia))) as R1.
  pose proof (round_of_group 2 _ (Hg 2%nat ltac:(lia))) as R2.
  pose proof (after_last_group 3 Hn) as R3.
  unfold batchSize in R0, R1, R2, R3. cbn [Nat.mul Nat.add] in R0, R1, R2, R3.
  rewrite drop_0 in R0.
  replace (take 3 (drop 6 texts)) with (drop 6 texts) in R2
    by (symmetry; apply take_ge; rewrite length_drop; lia).
  unfold loop in *. rewrite R0.
  destruct (Promise_all (completion_order 0) _) as [first|]; [|reflexivity].
  cbn [mbind option_bind]. rewrite R1.
  destruct (Promise_all (completion_order 3) _) as [second|]; [|reflexivity].
  cbn [mbind option_bind]. rewrite R2.
  destruct (Promise_all (completion_order 6) _) as [third|]; [|reflexivity].
  cbn [mbind option_bind]. rewrite R3. now rewrite <- app_assoc.
Qed.

(** C8.  When every promise settles, in whatever order, the batch returns
    one item per non-blank text, in the order of the input.  The loop takes
    the texts in consecutive groups of three, the last one possibly
    shorter: its round [k] makes the promises of group [k], waits for all
    of them and only then goes on to group [k + 1], and it returns after
    the last group; a promise of a group that never settles keeps the
    batch from returning.  Seven texts are handled in three rounds, of 3, 3
    and 1 promises, and give seven items when none of them is blank. *)
Theorem analyzeBatch_in_order :
  (all_settle completion_order texts ->
   exists results,
     analyzeBatchWithEnhancedOpenAI analyze completion_order texts apiKey = Some results
     /\ item_text <$> results = List.filter nonblank texts
     /\ length results = length (List.filter nonblank texts)
     /\ results
        = concat (imap (fun k g =>
                          omap id (imap (fun j text => promise_for (batchSize * k + j) text) g))
                       (groups texts))
     /\ concat (groups texts) = texts
     /\ (forall (k : nat) g, groups texts !! k = Some g ->
           (1 <= length g <= batchSize)%nat
           /\ ((S k < length (groups texts))%nat -> length g = batchSize))
     /\ (length texts = 7%nat ->
         length <$> groups texts = [3; 3; 1]%nat
         /\ (forallb nonblank texts = true -> length results = 7%nat)))
  /\ (forall (k : nat) (g : list jsstring), groups texts !! k = Some g ->
        forall (fuel : nat) (results : list (BatchItem Analysis)),
          loop (S fuel) texts apiKey (batchSize * k)%nat results
          = match Promise_all (completion_order (batchSize * k)%nat)
                    (imap (fun j text => promise_for (batchSize * k + j)%nat text) g) with
            | Some batchResults =>
                loop fuel texts apiKey (batchSize * S k)%nat (results ++ omap id batchResults)
            | None => None
            end)
  /\ (forall k : nat, groups texts !! k = None ->
        forall (fuel : nat) (results : list (BatchItem Analysis)),
          loop (S fuel) texts apiKey (batchSize * k)%nat results = Some results)
  /\ (forall (k j : nat) (g : list jsstring),
        groups texts !! k = Some g -> (j < length g)%nat ->
        j ∉ completion_order (batchSize * k)%nat ->
        analyzeBatchWithEnhancedOpenAI analyze completion_order texts apiKey = None)
  /\ (length texts = 7%nat ->
      analyzeBatchWithEnhancedOpenAI analyze completion_order texts apiKey
      = (Promise_all (completion_order 0)
           (imap (fun j text => promise_for (0 + j) text) (take 3 texts)) ≫= fun first =>
         Promise_all (completion_order 3)
           (imap (fun j text => promise_for (3 + j) text) (take 3 (drop 3 texts)))
           ≫= fun second =>
         Promise_all (completion_order 6)
           (imap (fun j text => promise_for (6 + j) text) (drop 6 texts)) ≫= fun third =>
         Some (omap id first ++ omap id second ++ omap id third))).
Proof.
  split; [|split; [exact round_of_group|split; [exact after_last_group|split]]].
  - intros Hsettle. eexists. split; [now apply analyzeBatch_result|].
    assert (Htexts : item_text <$> omap id (imap promise_for texts)
                     = List.filter nonblank texts) by apply (items_texts _ id).
    assert (Hlen : length (omap id (imap promise_for texts))
                   = length (List.filter nonblank texts))
      by (now rewrite <- Htexts, length_fmap).
    split; [exact Htexts|]. split; [exact Hlen|].
    split; [apply (items_by_group (length texts) texts 0); lia|].
    destruct (groups_shape texts) as [Hc Hg]. split; [exact Hc|]. split; [exact Hg|].
    intros H7. split; [now apply groups_of_seven|].
    intros Hall. rewrite Hlen, <- H7. f_equal.
    clear - Hall. induction texts as [|t l IH]; [reflexivity|].
    cbn in *. apply andb_true_iff in Hall. destruct Hall as [-> Hl]. f_equal. auto.
  - intros k j g Hg Hj Hnot. unfold analyzeBatchWithEnhancedOpenAI.
    change 0%nat with (batchSize * 0)%nat. apply (loop_blocked k j g Hg Hj Hnot k 0). lia.
  - exact seven_in_three_rounds.
Qed.

(** C7.  When the analysis of a non-blank text fails with an error, the
    item at the position of that text is the record with the text, the
    message of the error, aiProbability 50, confidence 10 and the
    interpretation Analysis failed.  The batch still returns, and every
    other non-blank text, of the same group or not, has the item of its
    own analysis at its position. *)
Theorem analyzeBatch_failed_item (index : nat) (text message : jsstring) :
  all_settle completion_order texts ->
  texts !! index = Some text -> nonblank text = true ->
  analyze index text apiKey = Rejected message ->
  exists results,
    analyzeBatchWithEnhancedOpenAI analyze completion_order texts apiKey = Some results
    /\ results !! slot texts index
       = Some (Failed text message (of_Z 50) (of_Z 10) (str "Analysis failed"))
    /\ forall (j : nat) (t : jsstring),
        texts !! j = Some t -> nonblank t = true ->
        results !! slot texts j = Some (item_for analyze apiKey j t).
Proof.
  intros Hsettle Ht Hb Hfail. eexists. split; [now apply analyzeBatch_result|].
  split; [|intros j t; apply item_at_slot].
  rewrite (item_at_slot index text Ht Hb). unfold item_for. now rewrite Hfail.
Qed.

End BatchFacts.

(** Whatever the order in which the three promises of a group settle, they
  all settle. *)
Lemma permuted_order_settles (order : list nat) (texts : list jsstring) :
(forall j : nat, (j < 3)%nat -> j ∈ order) -> all_settle (fun _ => order) texts.
Proof.
intros Horder k g Hg j Hj. apply Horder.
destruct (groups_shape texts) as [_ H]. destruct (H k g Hg) as [[_ Hle] _].
unfold batchSize in Hle. lia.
Qed.

Lemma last_first_settles (texts : list jsstring) : all_settle last_first texts.
Proof.
  apply permuted_order_settles. intros j Hj. unfold last_first.
  destruct j as [|[|[|j]]]; [set_solver|set_solver|set_solver|lia].
Qed.

Lemma analyzeBatch_in_order_witness :
  (exists results,
     analyzeBatchWithEnhancedOpenAI sample_analysis last_first sample_texts (str "sk-k")
     = Some results
     /\ item_text <$> results = [str "one"; str "two"; str "four"])
  /\ analyzeBatchWithEnhancedOpenAI sample_analysis second_pending sample_texts (str "sk-k")
     = None.
Proof.
  split.
  - destruct (analyzeBatch_in_order sample_analysis last_first sample_texts (str "sk-k"))
      as (Hall & _).
    destruct (Hall (last_first_settles sample_texts)) as (results & H & Ht & _).
    exists results. split; [exact H|exact Ht].
  - destruct (analyzeBatch_in_order sample_analysis second_pending sample_texts (str "sk-k"))
      as (_ & _ & _ & Hblocked & _).
    apply (Hblocked 0%nat 1%nat [str "one"; str "two"; str "  "]);
      [reflexivity|cbn; lia|].
    unfold second_pending. cbn. intros Hin.
    apply elem_of_cons in Hin. destruct Hin as [Hin|Hin]; [discriminate|].
    apply elem_of_cons in Hin. destruct Hin as [Hin|Hin]; [discriminate|].
    now apply elem_of_nil in Hin.
Defined.

Lemma analyzeBatch_failed_item_witness :
  exists results,
    analyzeBatchWithEnhancedOpenAI sample_analysis last_first sample_texts (str "sk-k")
    = Some results
    /\ results !! 1%nat
       = Some (Failed (str "two") (str "timeout") (of_Z 50) (of_Z 10) (str "Analysis failed")).
Proof.
  destruct (analyzeBatch_failed_item sample_analysis last_first sample_texts (str "sk-k")
              1 (str "two") (str "timeout") (last_first_settles sample_texts)
              eq_refl eq_refl eq_refl) as (results & H & Hf & _).
  exists results. split; [exact H|exact Hf].
Defined.

(* ===================================================================== *)
(** * The cosine similarity and the edges of the embedding score *)
(* ===================================================================== *)


Section SimilarityFacts.

Lemma accumulate_swap (vec1 : list number) :
  forall (vec2 : list number) (d n1 n2 : number),
    accumulate vec2 vec1 (d, n2, n1)
    = let '(D, N1, N2) := accumulate vec1 vec2 (d, n1, n2) in (D, N2, N1).
Proof.
  unfold accumulate.
  induction vec1 as [|a vec1 IH]; intros [|b vec2] d n1 n2; try reflexivity.
  cbn [zip zip_with fold_left]. rewrite (mul_comm b a). apply IH.
Qed.

(** X1.  The similarity does not depend on the order of the two vectors. *)
Theorem cosineSimilarity_symmetric (vec1 vec2 : list number) :
  cosineSimilarity vec1 vec2 = cosineSimilarity vec2 vec1.
Proof.
  unfold cosineSimilarity. rewrite (Nat.eqb_sym (length vec2)).
  destruct (negb _); [reflexivity|].
  fold (accumulate vec1 vec2 (of_Z 0, of_Z 0, of_Z 0)).
  fold (accumulate vec2 vec1 (of_Z 0, of_Z 0, of_Z 0)).
  rewrite (accumulate_swap vec1 vec2).
  destruct (accumulate vec1 vec2 _) as [[D N1] N2].
  now rewrite orb_comm, (mul_comm (sqrt N2)).
Qed.

Lemma norm_of_zeros (vec1 : list number) :
  forallb is_zero vec1 = true ->
  forall (vec2 : list number) (d n1 n2 : number),
    is_zero n1 = true ->
    is_zero (snd (fst (accumulate vec1 vec2 (d, n1, n2)))) = true.
Proof.
  unfold accumulate.
  induction vec1 as [|a vec1 IH]; intros Hz [|b vec2] d n1 n2 Hn; try assumption.
  cbn [zip zip_with fold_left]. cbn in Hz. apply andb_true_iff in Hz.
  destruct Hz as [Ha Hz]. apply IH; [assumption|].
  destruct a; try discriminate. destruct n1; try discriminate.
  cbn. now destruct s0, (xorb s s).
Qed.

Lemma cosineSimilarity_mismatch (vec1 vec2 : list number) :
  length vec1 <> length vec2 -> cosineSimilarity vec1 vec2 = of_Z 0.
Proof.
  intros Hl. unfold cosineSimilarity.
  now destruct (Nat.eqb_spec (length vec1) (length vec2)).
Qed.

(** X2.  The similarity is 0 when the lengths differ and when the first
    vector has only zero components: the division by a zero norm is never
    made, whatever the second vector holds. *)
Theorem cosineSimilarity_zero (vec1 vec2 : list number) :
  length vec1 <> length vec2 \/ forallb is_zero vec1 = true ->
  cosineSimilarity vec1 vec2 = of_Z 0.
Proof.
  intros H. unfold cosineSimilarity.
  destruct (Nat.eqb_spec (length vec1) (length vec2)) as [Hl|Hl]; [|reflexivity].
  destruct H as [H|H]; [congruence|]. cbn [negb].
  pose proof (norm_of_zeros vec1 H vec2 (of_Z 0) (of_Z 0) (of_Z 0) eq_refl) as Hn.
  unfold accumulate in Hn.
  destruct (fold_left _ _ _) as [[D N1] N2]. cbn in Hn.
  destruct N1; try discriminate. reflexivity.
Qed.

End SimilarityFacts.

Section EmbeddingEdge.

Variable Number_toString : number -> jsstring.

Lemma length_aiPattern : length aiPattern = 1536%nat.
Proof. apply length_replicate. Qed.

Lemma length_humanPattern : length humanPattern = 1536%nat.
Proof. apply length_replicate. Qed.

(** X3.  An embedding that has not 1536 components gives the probability 50 and
    the source human; a failed embedding call fails the analysis, with the
    message prefixed. *)
Theorem performEmbeddingAnalysis_edge :
  (forall textEmbedding : list number,
      length textEmbedding <> 1536%nat ->
      exists r, performEmbeddingAnalysis Number_toString (Fulfilled textEmbedding) = Fulfilled r
                /\ aiProbability r = of_Z 50 /\ confidence r = of_Z 70
                /\ likelySource r = human)
  /\ (forall message : jsstring,
        performEmbeddingAnalysis Number_toString (Rejected message)
        = Rejected (str "Failed to perform embedding analysis: " ++ message)).
Proof.
  split; [|reflexivity]. intros v Hv. eexists. split; [reflexivity|].
  cbn [aiProbability confidence likelySource].
  rewrite !cosineSimilarity_mismatch
    by (rewrite ?length_aiPattern, ?length_humanPattern; assumption).
  repeat split.
Qed.

(** X4.  A result without a numeric aiProbability (NaN) on either side gives
    NaN, and the source human. *)
Theorem combineAnalysisResults_NaN (embeddingResult completionResult : RemoteScore) :
  aiProbability embeddingResult = NaN \/ aiProbability completionResult = NaN ->
  let r := combineAnalysisResults Number_toString embeddingResult completionResult in
  aiProbability r = NaN /\ likelySource r = human.
Proof.
  intros H. cbv zeta. unfold combineAnalysisResults. cbn [aiProbability likelySource].
  assert (Hn : add (mul (aiProbability embeddingResult) embeddingWeight)
                   (mul (aiProbability completionResult) completionWeight) = NaN).
  { destruct H as [-> | ->]; [reflexivity|].
    now destruct (mul (aiProbability embeddingResult) embeddingWeight). }
  rewrite Hn. split; reflexivity.
Qed.

End EmbeddingEdge.


(* ===================================================================== *)
(** * The validation score *)
(* ===================================================================== *)


Section ValidationFacts.

Lemma is_number_of_Z (n : Z) : 0 <= n <= 100 -> is_number (of_Z n) = true.
Proof.
  intros Hn.
  assert (H : forallb (fun k => is_number (of_Z (Z.of_nat k))) (seq 0 101) = true)
    by (vm_compute; reflexivity).
  rewrite forallb_forall in H. specialize (H (Z.to_nat n)).
  rewrite Z2Nat.id in H by lia. apply H, in_seq. lia.
Qed.

Lemma of_Z_bounded (n : Z) : 0 <= n <= 100 -> bounded_by 200 1 (of_Z n).
Proof.
  intros Hn. apply within_bounded; [now apply is_number_of_Z|now apply within_of_Z].
Qed.

(** A number between 0 and 1 is under the bound 1 = 2/2. *)
Lemma unit_bounded (x : number) :
  is_number x = true -> le (of_Z 0) x = true -> le x (of_Z 1) = true -> bounded_by 2 1 x.
Proof.
  intros Hv H0 H1.
  destruct x as [s|s| |s m e]; cbn [bounded_by].
  - exact I.
  - destruct s; [vm_compute in H0|vm_compute in H1]; discriminate.
  - vm_compute in H0. discriminate.
  - destruct s; [vm_compute in H0; discriminate|].
    pose proof (digits_of_number m e Hv) as Hd.
    unfold le in H1.
    replace (of_Z 1) with (S754_finite false 4503599627370496 (-52)) in H1
      by (vm_compute; reflexivity).
    unfold SFleb in H1. cbn [SFcompare] in H1.
    destruct (Z.compare_spec e (-52)) as [He|He|He]; [| |discriminate].
    + subst e. split; [lia|]. change (2 ^ (- -52 - 1)) with 2251799813685248.
      assert (Hc : (m <= 4503599627370496)%positive).
      { unfold Pos.le, Pos.compare.
        destruct (Pos.compare_cont Eq m 4503599627370496); discriminate. }
      apply Pos2Z.pos_le_pos in Hc. clear - Hc. lia.
    + split; [lia|].
      assert (H : 2 ^ 52 <= 2 ^ (- e - 1)) by (apply Z.pow_le_mono_r; lia).
      change (2 ^ 53) with 9007199254740992 in Hd.
      change (2 ^ 52) with 4503599627370496 in H. clear - Hd H. lia.
Qed.

Lemma add_zero_bounded (B k : Z) (x : number) :
  bounded_by B k x -> bounded_by B k (add (of_Z 0) x).
Proof. destruct x as [s|s| |[|] m e]; cbn; try tauto. now destruct s. Qed.

Lemma bound_ok_intro (B k : Z) :
  (0 <? B) && (B <? 2 ^ 53) && (1 <=? k) && (k <=? 1074) = true -> bound_ok B k.
Proof.
  intros H. repeat (apply andb_true_iff in H; destruct H as [H ?]).
  unfold bound_ok. rewrite <- !Z.ltb_lt, <- !Z.leb_le. auto.
Qed.

(** A fifth of a number under 100: under 20 and one unit in the last
    place. *)
Lemma fifth_bounded (x : number) :
  bounded_by 200 1 x -> bounded_by 5629499534213121 48 (mul x (literal 2 10)).
Proof.
  replace (literal 2 10) with (S754_finite false 7205759403792794 (-55))
    by (vm_compute; reflexivity).
  apply mul_bounded; [apply bound_ok_intro; reflexivity|lia|lia|vm_compute; discriminate].
Qed.

(** X5.  The validation score lies between 0 and 100 when the confidence does,
    the lexical diversity lies between 0 and 1, and the counts are not
    negative. *)
Theorem calculateValidationScore_within (analysisResult : RemoteScore) (textStats : TextStats) :
  is_number (confidence analysisResult) = true ->
  within_0_100 (confidence analysisResult) = true ->
  is_number (lexicalDiversity textStats) = true ->
  le (of_Z 0) (lexicalDiversity textStats) = true ->
  le (lexicalDiversity textStats) (of_Z 1) = true ->
  0 <= words textStats -> 0 <= personalPronouns textStats ->
  within_0_100 (calculateValidationScore analysisResult textStats) = true.
Proof.
  intros Hc Hcw Hl Hl0 Hl1 Hw Hp. unfold calculateValidationScore. cbv zeta.
  apply (Math_round_bounded (5629499534213122 + 1407374883553281) 46);
    [lia|reflexivity|].
  apply add_bounded; [lia|lia|apply bound_ok_intro; reflexivity| |].
  - change 5629499534213122 with (4222124650659841 + 1407374883553281).
    apply add_bounded; [lia|lia|apply bound_ok_intro; reflexivity| |].
    + apply (bounded_by_weaken (5629499534213121 + 2814749767106561) 47);
        [lia|vm_compute; discriminate|].
      apply add_bounded; [lia|lia|apply bound_ok_intro; reflexivity| |].
      * apply add_zero_bounded.
        replace (literal 4 10) with (S754_finite false 7205759403792794 (-54))
          by (vm_compute; reflexivity).
        apply (mul_bounded 200 1);
          [apply bound_ok_intro; reflexivity|lia|lia|vm_compute; discriminate|].
        now apply within_bounded.
      * apply (bounded_by_weaken 5629499534213121 48); [lia|vm_compute; discriminate|].
        apply fifth_bounded, of_Z_bounded. lia.
    + apply (bounded_by_weaken 5629499534213121 48); [lia|vm_compute; discriminate|].
      apply fifth_bounded.
      replace (of_Z 100) with (S754_finite false 7036874417766400 (-46))
        by (vm_compute; reflexivity).
      apply (mul_bounded 2 1);
        [apply bound_ok_intro; reflexivity|lia|lia|vm_compute; discriminate|].
      now apply unit_bounded.
  - apply (bounded_by_weaken 5629499534213121 48); [lia|vm_compute; discriminate|].
    apply fifth_bounded, of_Z_bounded. lia.
Qed.

End ValidationFacts.


(* ===================================================================== *)
(** * More on the text statistics *)
(* ===================================================================== *)


Section StatsFacts.

Lemma filter_length_le {A : Type} (p q : A -> bool) (l : list A) :
  (forall x, p x = true -> q x = true) ->
  (length (List.filter p l) <= length (List.filter q l))%nat.
Proof.
  intros Hpq. induction l as [|x l IH]; [reflexivity|]. cbn.
  destruct (p x) eqn:Hp.
  - rewrite (Hpq x Hp). cbn. lia.
  - destruct (q x); cbn; lia.
Qed.

(** X6.  The long words are among the words. *)
Theorem longWords_le_words (text : jsstring) :
  0 <= longWords (calculateEnhancedTextStats text)
    <= words (calculateEnhancedTextStats text).
Proof.
  destruct text as [|c text]; [cbn; lia|].
  unfold calculateEnhancedTextStats. cbn [longWords words]. unfold count_longer_than.
  split; [lia|]. apply inj_le, filter_length_le.
  intros w H. apply Nat.ltb_lt in H. apply Nat.ltb_lt. lia.
Qed.

Lemma lower_space (c : char) : (lower c =? space)%N = (c =? space)%N.
Proof.
  unfold lower, in_range, space.
  destruct (N.leb_spec 65 c), (N.leb_spec c 90); cbn [andb];
    destruct (N.eqb_spec c 32), (N.eqb_spec (c + 32) 32); try reflexivity; lia.
Qed.

Lemma split_toLowerCase (s : jsstring) :
  split space (toLowerCase s) = map toLowerCase (split space s).
Proof.
  unfold toLowerCase. induction s as [|c s IH]; [reflexivity|].
  cbn [map]. rewrite !split_cons, lower_space, IH.
  destruct (c =? space)%N; [reflexivity|].
  pose proof (split_not_nil space s). destruct (split space s); [congruence|reflexivity].
Qed.

Lemma distinct_le (tokens : list jsstring) :
  distinct tokens
  <= Z.of_nat (length (List.filter (fun word => (0 <? length word)%nat) tokens)) + 1.
Proof.
  unfold distinct.
  set (long := List.filter (fun word : jsstring => (0 <? length word)%nat) tokens).
  assert (Hsub : (list_to_set tokens : gset jsstring) ⊆ {[ [] ]} ∪ list_to_set long).
  { intros w Hw. apply elem_of_list_to_set in Hw. destruct w as [|c w]; [set_solver|].
    apply elem_of_union_r, elem_of_list_to_set, list_elem_of_In, filter_In.
    split; [now apply list_elem_of_In|reflexivity]. }
  apply subseteq_size in Hsub.
  assert (Hu : (size ({[ [] ]} ∪ list_to_set long : gset jsstring) <= 1 + length long)%nat).
  { rewrite size_union_alt, size_singleton.
    assert (size (list_to_set long ∖ {[ [] ]} : gset jsstring) <= length long)%nat; [|lia].
    transitivity (size (list_to_set long : gset jsstring));
      [apply subseteq_size; set_solver|].
    clear. induction long as [|w l IH]; [now rewrite list_to_set_nil, size_empty|].
    rewrite list_to_set_cons, size_union_alt, size_singleton. cbn.
    assert (size (list_to_set l ∖ {[ w ]} : gset jsstring) <= size (list_to_set l : gset jsstring))%nat
      by (apply subseteq_size; set_solver). lia. }
  pose proof (Nat.le_trans _ _ _ Hsub Hu) as Hle. apply inj_le in Hle.
  rewrite Nat2Z.inj_add in Hle. rewrite Z.add_comm. exact Hle.
Qed.

Lemma kept_ascii (c : char) :
  is_kept c = true -> (is_space c = true -> c = space) -> is_ascii c = true.
Proof.
  unfold is_kept, is_ascii. intros Hk Hs. apply N.ltb_lt.
  destruct (is_space c) eqn:Es; [rewrite Hs by reflexivity; reflexivity|].
  rewrite orb_false_r in Hk. apply orb_true_iff in Hk. destruct Hk as [Hk|Hk].
  - apply orb_true_iff in Hk. destruct Hk as [Hk|Hk].
    + unfold is_word, in_range in Hk.
      repeat (apply orb_true_iff in Hk; destruct Hk as [Hk|Hk]);
        try (apply andb_true_iff in Hk; destruct Hk as [_ Hk]; apply N.leb_le in Hk; lia).
      apply N.eqb_eq in Hk. lia.
    + unfold one_of in Hk. apply existsb_exists in Hk. destruct Hk as (x & Hx & Hc).
      apply N.eqb_eq in Hc. subst x.
      assert (H : forallb is_ascii (str ".,!?;:'()-") = true) by reflexivity.
      rewrite forallb_forall in H. apply H in Hx. now apply N.ltb_lt in Hx.
  - apply N.eqb_eq in Hk. lia.
Qed.

(** The output of the preprocessor is made of ASCII units. *)
Lemma preprocessText_ascii (text : jsstring) :
  forallb is_ascii (preprocessText text) = true.
Proof.
  destruct preprocessText_output as [_ H]. destruct (H text) as (Hk & _ & _ & Hs).
  cbv zeta in *. rewrite forallb_forall in *. intros c Hc.
  specialize (Hk c Hc). specialize (Hs c Hc). apply kept_ascii; [exact Hk|].
  intros E. rewrite E in Hs. now apply N.eqb_eq in Hs.
Qed.

Lemma tokens_le_words_plus_one (text : jsstring) :
  distinct (split space (toLowerCase text)) <= count_longer_than 0 text + 1.
Proof.
  unfold count_longer_than. rewrite split_toLowerCase.
  etransitivity; [apply distinct_le|]. apply Z.add_le_mono_r, inj_le.
  induction (split space text) as [|w l IH]; [reflexivity|]. cbn [map List.filter].
  replace (length (toLowerCase w)) with (length w) by (unfold toLowerCase; now rewrite length_map).
  destruct (0 <? length w)%nat; cbn [length]; lia.
Qed.

(** X7.  On a text of ASCII units, where lower-casing changes the letters A
    to Z only, the number of distinct tokens (the numerator of the lexical
    diversity) is at most the number of words plus one: only the empty
    token is counted without being a word.  The output of the preprocessor
    is such a text, whatever its input, so that the bound holds of the
    statistics that the analysis computes. *)
Theorem uniqueWords_le_words_plus_one (text : jsstring) :
  (forallb is_ascii text = true ->
   distinct (split space (toLowerCase text)) <= count_longer_than 0 text + 1)
  /\ forallb is_ascii (preprocessText text) = true
  /\ distinct (split space (toLowerCase (preprocessText text)))
     <= count_longer_than 0 (preprocessText text) + 1.
Proof.
  split; [intros _; apply tokens_le_words_plus_one|].
  split; [apply preprocessText_ascii|apply tokens_le_words_plus_one].
Qed.

Lemma toLowerCase_spaces (n : nat) : toLowerCase (spaces n) = spaces n.
Proof.
  unfold toLowerCase, spaces. induction n as [|n IH]; [reflexivity|]. cbn. now rewrite IH.
Qed.

Lemma countSyllables_spaces (n : nat) : countSyllables (spaces n) = 1.
Proof.
  unfold countSyllables. rewrite toLowerCase_spaces, split_spaces. cbv zeta.
  match goal with |- context [fold_left ?F _ _] => set (f := F) end.
  assert (Hf : forall count, f count [] = count).
  { intros count. unfold f. cbn. change (match_count re_vowels []) with 0. lia. }
  assert (H : forall m count, fold_left f (replicate m []) count = count).
  { induction m as [|m IH]; intros count; cbn [replicate fold_left]; [reflexivity|].
    rewrite Hf. apply IH. }
  rewrite H. reflexivity.
Qed.

(** X8.  A text that is not empty and has no word gets the readability score
    Infinity: its syllable count, 1, is divided by its word count, 0. *)
Theorem readabilityScore_without_words (text : jsstring) :
  text <> [] -> words (calculateEnhancedTextStats text) = 0 ->
  readabilityScore (calculateEnhancedTextStats text) = Infinity.
Proof.
  destruct text as [|c text]; [congruence|]. intros _.
  unfold calculateEnhancedTextStats. cbn [words readabilityScore].
  intros Hw. rewrite Hw. pose proof (no_words_spaces _ Hw) as Hs. rewrite Hs.
  rewrite countSyllables_spaces.
  rewrite match_count_spaces by (intros; apply no_sentence_end_in_spaces).
  vm_compute. reflexivity.
Qed.

End StatsFacts.


(* ===================================================================== *)
(** * More on the preprocessor *)
(* ===================================================================== *)


Section TrimFacts.

Lemma drop_while_nil (p : char -> bool) (s : jsstring) :
  drop_while p s = [] <-> forallb p s = true.
Proof.
  induction s as [|c s IH]; cbn; [tauto|]. destruct (p c); cbn; [exact IH|].
  split; discriminate.
Qed.

Lemma drop_while_app (p : char -> bool) (a b : jsstring) :
  drop_while p (a ++ b) = if forallb p a then drop_while p b else drop_while p a ++ b.
Proof.
  induction a as [|c a IH]; [reflexivity|]. cbn. destruct (p c); [exact IH|reflexivity].
Qed.

Lemma forallb_rev (p : char -> bool) (s : jsstring) : forallb p (rev s) = forallb p s.
Proof.
  induction s as [|c s IH]; [reflexivity|]. cbn. rewrite forallb_app, IH. cbn.
  now rewrite andb_true_r, andb_comm.
Qed.

Lemma trimEnd_cons (c : char) (s : jsstring) :
  trimEnd (c :: s) =
    if forallb is_space s then (if is_space c then [] else [c]) else c :: trimEnd s.
Proof.
  unfold trimEnd. cbn [rev]. rewrite drop_while_app, forallb_rev.
  destruct (forallb is_space s).
  - cbn. now destruct (is_space c).
  - now rewrite rev_app_distr.
Qed.

(** A text is blank exactly when it is made of white space only. *)
Lemma nonblank_spec (text : jsstring) :
  nonblank text = negb (forallb is_space text).
Proof.
  unfold nonblank, trim, trimStart.
  induction text as [|c text IH]; [reflexivity|]. cbn [drop_while forallb].
  destruct (is_space c) eqn:Hc; [exact IH|]. cbn [andb negb].
  rewrite trimEnd_cons, Hc. now destruct (forallb is_space text).
Qed.

End TrimFacts.

Section NormalizationFacts.

Lemma plus_loop_accept_eq (p : char -> bool) (c : char) (s : jsstring) :
  p c = true -> plus_loop p accept (c :: s) = Some (drop_while p s).
Proof.
  revert c. induction s as [|d s IH]; intros c Hp; cbn; rewrite Hp; [reflexivity|].
  destruct (p d) eqn:Hd; [|reflexivity].
  specialize (IH d Hd). cbn in IH. rewrite Hd in IH. now rewrite IH.
Qed.

Lemma drop_while_length (p : char -> bool) (s : jsstring) :
  (length (drop_while p s) <= length s)%nat.
Proof. induction s as [|c s IH]; cbn; [lia|]. destruct (p c); cbn; lia. Qed.

Lemma drop_while_head (p : char -> bool) (s : jsstring) (c : char) (r : jsstring) :
  drop_while p s = c :: r -> p c = false.
Proof.
  induction s as [|d s IH]; cbn; [discriminate|]. destruct (p d) eqn:Hd; [exact IH|].
  now intros [= <- _].
Qed.

Lemma no_adjacent_cons (c : char) (s : jsstring) :
  no_adjacent_spaces (c :: s) =
    negb (is_space c && starts_with_space s) && no_adjacent_spaces s.
Proof.
  destruct s as [|d s]; [|reflexivity]. cbn. now rewrite andb_false_r.
Qed.

Lemma collapsed_spaced (fuel : nat) :
  forall (prev : option char) (s : jsstring),
    no_adjacent_spaces (collapsed fuel prev s) = true
    /\ only_plain_spaces (collapsed fuel prev s) = true
    /\ (starts_with_space (collapsed fuel prev s) = true -> starts_with_space s = true).
Proof.
  unfold collapsed, re_whitespace.
  induction fuel as [|fuel IH]; intros prev s;
    [cbn; split; [|split]; [reflexivity|reflexivity|discriminate]|].
  cbn [scan]. unfold exec_here. cbn [rmatch].
  destruct s as [|c s];
    [cbn; split; [|split]; [reflexivity|reflexivity|discriminate]|].
  destruct (is_space c) eqn:Hc.
  - rewrite plus_loop_accept_eq by assumption.
    pose proof (drop_while_length is_space s) as Hl.
    replace (length (drop_while is_space s) <? length (c :: s))%nat with true
      by (symmetry; apply Nat.ltb_lt; cbn; lia).
    cbn [map concat app].
    destruct (IH (last (take (length (c :: s) - length (drop_while is_space s)) (c :: s)))
                 (drop_while is_space s)) as (Ha & Hp & Hs).
    set (out := concat _) in *.
    assert (Hout : starts_with_space out = false).
    { destruct (starts_with_space out) eqn:E; [|reflexivity].
      specialize (Hs eq_refl). destruct (drop_while is_space s) as [|d r] eqn:Hd;
        [discriminate|]. apply drop_while_head in Hd. cbn in Hs. congruence. }
    split; [|split].
    + change ([space] ++ out) with (space :: out).
      rewrite no_adjacent_cons, Hout, andb_false_r. exact Ha.
    + change ([space] ++ out) with (space :: out). unfold only_plain_spaces in *.
      cbn [forallb]. rewrite Hp, N.eqb_refl. reflexivity.
    + intros _. exact Hc.
  - cbn [plus_loop]. rewrite Hc. cbn [map concat app].
    destruct (IH (Some c) s) as (Ha & Hp & _). set (out := concat _) in *.
    split; [|split].
    + change ([c] ++ out) with (c :: out). rewrite no_adjacent_cons, Hc. exact Ha.
    + change ([c] ++ out) with (c :: out). unfold only_plain_spaces in *.
      cbn [forallb]. rewrite Hp, Hc. reflexivity.
    + change ([c] ++ out) with (c :: out). cbn. rewrite Hc. discriminate.
Qed.

Lemma drop_while_spaced (s : jsstring) :
  no_adjacent_spaces s = true -> only_plain_spaces s = true ->
  no_adjacent_spaces (drop_while is_space s) = true
  /\ only_plain_spaces (drop_while is_space s) = true
  /\ starts_with_space (drop_while is_space s) = false.
Proof.
  induction s as [|c s IH]; [cbn; auto|]. intros Ha Hp. cbn [drop_while].
  destruct (is_space c) eqn:Hc.
  - apply IH.
    + rewrite no_adjacent_cons in Ha. now apply andb_true_iff in Ha.
    + unfold only_plain_spaces in *. cbn [forallb] in Hp. now apply andb_true_iff in Hp.
  - split; [exact Ha|]. split; [exact Hp|exact Hc].
Qed.

Lemma trimEnd_head (c : char) (s : jsstring) :
  is_space c = false -> exists r, trimEnd (c :: s) = c :: r.
Proof.
  intros Hc. rewrite trimEnd_cons, Hc. destruct (forallb is_space s); eauto.
Qed.

Lemma trimEnd_keeps_head (s : jsstring) :
  forallb is_space s = false -> exists d r t, s = d :: r /\ trimEnd s = d :: t.
Proof.
  destruct s as [|d r]; [discriminate|]. intros H. rewrite trimEnd_cons.
  cbn in H. destruct (forallb is_space r).
  - rewrite andb_true_r in H. rewrite H. eauto.
  - eauto.
Qed.

Lemma trimEnd_single_spaced (s : jsstring) :
  no_adjacent_spaces s = true -> only_plain_spaces s = true ->
  single_spaced (trimEnd s) = true.
Proof.
  induction s as [|c s IH]; [reflexivity|]. intros Ha Hp.
  rewrite no_adjacent_cons in Ha. apply andb_true_iff in Ha. destruct Ha as [Hcd Ha'].
  unfold only_plain_spaces in *. cbn [forallb] in Hp.
  apply andb_true_iff in Hp. destruct Hp as [Hc Hp].
  specialize (IH Ha' Hp). rewrite trimEnd_cons.
  destruct (forallb is_space s) eqn:Hall.
  - destruct (is_space c) eqn:E; [reflexivity|]. cbn. now rewrite E.
  - destruct (trimEnd_keeps_head s Hall) as (d & r & t & -> & Ht).
    rewrite Ht in *.
    change (single_spaced (c :: d :: t))
      with ((if is_space c then (c =? space)%N && negb (is_space d) else true)
            && single_spaced (d :: t)).
    rewrite IH, andb_true_r.
    destruct (is_space c) eqn:E; [|reflexivity].
    cbn [implb] in Hc. rewrite Hc. cbn in Hcd. cbn [andb]. exact Hcd.
Qed.

Lemma trim_normalized (q : jsstring) :
  no_adjacent_spaces q = true -> only_plain_spaces q = true ->
  whitespace_normalized (trim q) = true.
Proof.
  intros Ha Hp. destruct (drop_while_spaced q Ha Hp) as (Ha' & Hp' & Hs').
  unfold whitespace_normalized, trim, trimStart.
  rewrite trimEnd_single_spaced by assumption. cbn [andb].
  destruct (drop_while is_space q) as [|d r]; [reflexivity|].
  cbn in Hs'. destruct (trimEnd_head d r Hs') as (t & ->). now rewrite Hs'.
Qed.

(** Whatever the text, the first step of the preprocessor (white space
    collapsed, then trimmed) leaves every run of white space as one space and
    none at either end. *)
Lemma first_step_normalized (text : jsstring) :
  whitespace_normalized (trim (replace_all re_whitespace [space] text)) = true.
Proof.
  destruct (collapsed_spaced (S (length text)) None text) as (Ha & Hp & _).
  now apply trim_normalized.
Qed.

End NormalizationFacts.

Section PreprocessorFacts.

Lemma scan_no_match (r : regex) (s : jsstring) :
  (forall prev t, (forall c, c ∈ t -> c ∈ s) -> exec_here r prev t = None) ->
  forall t fuel prev, (forall c, c ∈ t -> c ∈ s) -> (length t < fuel)%nat ->
    scan fuel r prev t = map Kept t.
Proof.
  intros H t. induction t as [|c t IH]; intros fuel prev Ht Hf;
    (destruct fuel as [|fuel]; [cbn in Hf; lia|]); cbn [scan map]; rewrite H by assumption.
  - reflexivity.
  - f_equal. apply IH; [|cbn in Hf; lia]. intros d Hd. apply Ht. set_solver.
Qed.

Lemma replace_no_match (r : regex) (by_ s : jsstring) :
  (forall prev t, (forall c, c ∈ t -> c ∈ s) -> exec_here r prev t = None) ->
  replace_all r by_ s = s.
Proof.
  intros H. unfold replace_all, pieces. rewrite (scan_no_match r s H) by (auto; lia).
  induction s as [|c s IH] in |- *; [reflexivity|]. cbn. f_equal. exact IH.
Qed.

Lemma replace_needs (a : ascii) (r r1 r2 : regex) :
  (forall prev s k, rmatch r prev s k = rmatch (Seq r1 (Seq (chr a) r2)) prev s k) ->
  forall by_ s, N_of_ascii a ∉ s -> replace_all r by_ s = s.
Proof.
  intros Hr by_ s Hnot. apply replace_no_match. intros prev t Ht.
  unfold exec_here. rewrite Hr. apply needs_char. intros Hin. apply Hnot, Ht, Hin.
Qed.

Lemma replace_url_none (by_ s : jsstring) :
  N_of_ascii "/" ∉ s -> replace_all re_url by_ s = s.
Proof.
  apply (replace_needs "/" re_url
           (Seq (word chr "http") (Seq (Opt (chr "s")) (chr ":")))
           (Seq (chr "/") (Plus (fun c => negb (is_space c))))).
  reflexivity.
Qed.

Lemma replace_email_none (by_ s : jsstring) :
  N_of_ascii "@" ∉ s -> replace_all re_email by_ s = s.
Proof.
  apply (replace_needs "@" re_email (Plus is_address_char)
           (Seq (Plus is_address_char) (Seq (chr ".") (Plus is_word)))).
  reflexivity.
Qed.

Lemma filter_all {A : Type} (p : A -> bool) (l : list A) :
  forallb p l = true -> List.filter p l = l.
Proof.
  induction l as [|a l IH]; [reflexivity|]. cbn. destruct (p a); [|discriminate].
  cbn. intros H. now rewrite IH.
Qed.

Lemma collapsed_in (fuel : nat) (prev : option char) (s : jsstring) (c : char) :
  c ∈ collapsed fuel prev s -> c = space \/ c ∈ s.
Proof.
  unfold collapsed. rewrite list_elem_of_In, in_concat.
  intros (l & Hl & Hc). apply in_map_iff in Hl. destruct Hl as ([m|d] & <- & Hp).
  - destruct Hc as [<-|Hc]; [|destruct Hc]. now left.
  - destruct Hc as [<-|Hc]; [|destruct Hc]. right. eapply scan_kept_in, Hp.
Qed.

Lemma kept_text_steps (text : jsstring) :
  forallb is_kept text = true ->
  preprocessText text = trim (replace_all re_whitespace [space] text).
Proof.
  intros Hk. destruct text as [|c0 text]; [reflexivity|].
  unfold preprocessText. cbv zeta.
  set (p1 := trim (replace_all re_whitespace [space] (c0 :: text))).
  assert (Hp1 : forallb is_kept p1 = true).
  { apply forallb_forall. intros c Hc. apply list_elem_of_In, trim_in in Hc.
    apply collapsed_in in Hc. destruct Hc as [->|Hc]; [reflexivity|].
    rewrite forallb_forall in Hk. apply Hk, list_elem_of_In, Hc. }
  assert (Hnot : forall a : ascii, is_kept (N_of_ascii a) = false -> N_of_ascii a ∉ p1).
  { intros a Ha Hin. rewrite forallb_forall in Hp1.
    apply list_elem_of_In, Hp1 in Hin. congruence. }
  rewrite replace_url_none by (apply Hnot; reflexivity).
  rewrite replace_email_none by (apply Hnot; reflexivity).
  rewrite preprocess_last_step. now apply filter_all.
Qed.

Lemma single_spaced_cons (c : char) (s : jsstring) :
  single_spaced (c :: s) = true ->
  single_spaced s = true
  /\ (is_space c = true ->
      c = space /\ exists d r, s = d :: r /\ is_space d = false).
Proof.
  cbn [single_spaced]. intros H. apply andb_true_iff in H. destruct H as [Hc Hs].
  split; [exact Hs|]. intros E. rewrite E in Hc.
  apply andb_true_iff in Hc. destruct Hc as [Hc Hd]. apply N.eqb_eq in Hc.
  split; [exact Hc|]. destruct s as [|d r]; [discriminate|].
  exists d, r. split; [reflexivity|]. now apply negb_true_iff.
Qed.

Lemma collapsed_fixed (s : jsstring) :
  forall (fuel : nat) (prev : option char),
    single_spaced s = true -> (length s < fuel)%nat -> collapsed fuel prev s = s.
Proof.
  unfold collapsed, re_whitespace.
  induction s as [|c s IH]; intros fuel prev Hs Hf;
    (destruct fuel as [|fuel]; [cbn in Hf; lia|]); [reflexivity|].
  apply single_spaced_cons in Hs. destruct Hs as [Hs Hc].
  cbn [scan]. unfold exec_here. cbn [rmatch].
  destruct (is_space c) eqn:E.
  - destruct (Hc eq_refl) as (-> & d & r & -> & Hd).
    rewrite plus_loop_accept_eq by assumption. cbn [drop_while]. rewrite Hd.
    replace (length (d :: r) <? length (space :: d :: r))%nat with true
      by (symmetry; apply Nat.ltb_lt; cbn; lia).
    cbn [map concat app]. f_equal. apply IH; [exact Hs|cbn in Hf |- *; lia].
  - cbn [plus_loop]. rewrite E. cbn [map concat app]. f_equal.
    apply IH; [exact Hs|cbn in Hf; lia].
Qed.

Lemma trimEnd_fixed (s : jsstring) : single_spaced s = true -> trimEnd s = s.
Proof.
  induction s as [|c s IH]; [reflexivity|]. intros Hs.
  apply single_spaced_cons in Hs. destruct Hs as [Hs Hc]. rewrite trimEnd_cons.
  destruct (forallb is_space s) eqn:Hall.
  - destruct s as [|d r].
    + destruct (is_space c); [|reflexivity].
      destruct (Hc eq_refl) as (_ & d & r & Hnil & _). discriminate.
    + exfalso. apply single_spaced_cons in Hs. destruct Hs as [_ Hd].
      cbn in Hall. apply andb_true_iff in Hall. destruct Hall as [Ed Hr].
      destruct (Hd Ed) as (_ & e & r' & -> & He). cbn in Hr. now rewrite He in Hr.
  - now rewrite IH.
Qed.

Lemma normalized_fixed (q : jsstring) :
  whitespace_normalized q = true -> trim (replace_all re_whitespace [space] q) = q.
Proof.
  unfold whitespace_normalized. intros H. apply andb_true_iff in H.
  destruct H as [Hs Hh]. apply negb_true_iff in Hh.
  change (replace_all re_whitespace [space] q) with (collapsed (S (length q)) None q).
  rewrite collapsed_fixed by (auto; lia).
  unfold trim, trimStart. destruct q as [|c q]; [reflexivity|].
  cbn [drop_while]. rewrite Hh. now apply trimEnd_fixed.
Qed.

Lemma kept_text_output (text : jsstring) :
  forallb is_kept text = true -> forallb is_kept (preprocessText text) = true.
Proof.
  intros Hk. rewrite (kept_text_steps text Hk). apply forallb_forall. intros c Hc.
  apply list_elem_of_In, trim_in, collapsed_in in Hc.
  destruct Hc as [->|Hc]; [reflexivity|].
  rewrite forallb_forall in Hk. apply Hk, list_elem_of_In, Hc.
Qed.

(** X9.  A text of kept characters only (word characters, white space and
    the listed punctuation) leaves the preprocessor with every run of white
    space collapsed to one space, none at either end, and nothing else
    changed: the three deletions find nothing to delete.  A second pass
    changes nothing more, and a text that is already of that form is
    returned as it is. *)
Theorem preprocessText_kept_text (text : jsstring) :
  forallb is_kept text = true ->
  preprocessText text = trim (replace_all re_whitespace [space] text)
  /\ whitespace_normalized (preprocessText text) = true
  /\ preprocessText (preprocessText text) = preprocessText text
  /\ (whitespace_normalized text = true -> preprocessText text = text).
Proof.
  intros Hk.
  assert (Hn : whitespace_normalized (preprocessText text) = true)
    by (rewrite (kept_text_steps text Hk); apply first_step_normalized).
  split; [exact (kept_text_steps text Hk)|]. split; [exact Hn|]. split.
  - rewrite (kept_text_steps _ (kept_text_output text Hk)). now apply normalized_fixed.
  - intros Ht. rewrite (kept_text_steps text Hk). now apply normalized_fixed.
Qed.

Lemma collapsed_length (fuel : nat) :
  forall (prev : option char) (s : jsstring),
    (length (collapsed fuel prev s) <= length s)%nat.
Proof.
  unfold collapsed, re_whitespace.
  induction fuel as [|fuel IH]; intros prev s; [cbn; lia|].
  cbn [scan]. unfold exec_here. cbn [rmatch].
  destruct s as [|c s]; [cbn; lia|].
  destruct (is_space c) eqn:Hc.
  - rewrite plus_loop_accept_eq by assumption.
    pose proof (drop_while_length is_space s) as Hl.
    replace (length (drop_while is_space s) <? length (c :: s))%nat with true
      by (symmetry; apply Nat.ltb_lt; cbn; lia).
    cbn [map concat app length].
    apply le_n_S. etransitivity; [apply IH|exact Hl].
  - cbn [plus_loop]. rewrite Hc. cbn [map concat app length].
    apply le_n_S, IH.
Qed.

Lemma deleted_length (r : regex) (fuel : nat) :
  forall (prev : option char) (s : jsstring),
    (length (concat (map (fun p => match p with Matched _ => [] | Kept c => [c] end)
                         (scan fuel r prev s))) <= length s)%nat.
Proof.
  induction fuel as [|fuel IH]; intros prev s; [cbn; lia|]. cbn [scan].
  destruct (exec_here r prev s) as [rest|] eqn:He; destruct s as [|d s'].
  - cbn; lia.
  - destruct (length rest <? length (d :: s'))%nat eqn:Hlt.
    + apply Nat.ltb_lt in Hlt. cbn [map concat app].
      etransitivity; [apply IH|]. apply Nat.lt_le_incl, Hlt.
    + cbn [map concat app length]. apply le_n_S, IH.
  - cbn; lia.
  - cbn [map concat app length]. apply le_n_S, IH.
Qed.

Lemma replace_deleted_length (r : regex) (s : jsstring) :
  (length (replace_all r [] s) <= length s)%nat.
Proof. apply deleted_length. Qed.

Lemma trim_length (s : jsstring) : (length (trim s) <= length s)%nat.
Proof.
  unfold trim, trimEnd, trimStart. rewrite length_rev.
  etransitivity; [apply drop_while_length|]. rewrite length_rev. apply drop_while_length.
Qed.

(** X10.  The preprocessor never makes a text longer. *)
Theorem preprocessText_length (text : jsstring) :
  (length (preprocessText text) <= length text)%nat.
Proof.
  destruct text as [|c0 text]; [reflexivity|]. unfold preprocessText. cbv zeta.
  repeat (etransitivity; [apply replace_deleted_length|]).
  etransitivity; [apply trim_length|]. apply collapsed_length.
Qed.

End PreprocessorFacts.


(* ===================================================================== *)
(** * The single-text analysis and the validation of a key *)
(* ===================================================================== *)


Section PipelineFacts.

Variable Number_toString : number -> jsstring.
Variable new_OpenAI : jsstring -> OpenAI.

Let analyzeText := analyzeTextWithEnhancedOpenAI Number_toString new_OpenAI.

(** X12.  A text of fewer than 100 words (after preprocessing) is scored by the
    completion alone: the one request sent is the completion request for
    the preprocessed text, a failure of it is reported with both prefixes,
    and a success gives the score of the completion under the model
    gpt-4o. *)
Theorem analyzeText_short_text (text apiKey : jsstring) :
  let processedText := preprocessText text in
  let textStats := calculateEnhancedTextStats processedText in
  let completion := chat_completions_create (new_OpenAI apiKey) processedText in
  text <> [] -> apiKey <> [] -> words textStats < 100 ->
  snd (analyzeText text apiKey) = [ChatCompletionsCreate apiKey processedText]
  /\ (forall message, completion = Rejected message ->
        fst (analyzeText text apiKey)
        = Rejected (str "Failed to analyze text: Failed to perform completion analysis: "
                      ++ message))
  /\ (forall c, completion = Fulfilled c ->
        exists r, fst (analyzeText text apiKey) = Fulfilled r
          /\ Analysis.aiProbability r = aiProbability c
          /\ Analysis.confidence r = confidence c
          /\ Analysis.textStats r = textStats
          /\ Analysis.model (Analysis.apiDetails r) = str "gpt-4o"
          /\ Analysis.confidenceFactors (Analysis.apiDetails r) = factors c
          /\ Analysis.sourceModel r = str "enhanced-openai").
Proof.
  cbv zeta. intros Ht Hk Hw. unfold analyzeText, analyzeTextWithEnhancedOpenAI.
  destruct text as [|c0 text]; [congruence|]. destruct apiKey as [|k0 apiKey]; [congruence|].
  cbv beta iota zeta. apply Z.ltb_lt in Hw. rewrite Hw.
  generalize dependent (preprocessText (c0 :: text)). intros processedText _.
  generalize (calculateEnhancedTextStats processedText). intros textStats.
  generalize (k0 :: apiKey). clear. intros apiKey.
  destruct (chat_completions_create _ _) as [c|m];
    cbn [performCompletionAnalysis fst snd].
  - split; [reflexivity|]. split; [discriminate|]. intros c' [= <-].
    eexists. split; [reflexivity|]. repeat split.
  - split; [reflexivity|]. split; [|discriminate]. intros m' [= <-].
    reflexivity.
Qed.

(** X13.  A text of 100 words or more is sent to both calls, the embedding
    first.  When the embedding call fails, the completion request is not
    sent and the failure is reported with both prefixes; when the embedding
    does well and the completion call fails, both requests have been sent
    and the failure of the completion is reported with both prefixes. *)
Theorem analyzeText_long_text (text apiKey : jsstring) :
  let processedText := preprocessText text in
  let textStats := calculateEnhancedTextStats processedText in
  let embedding := embeddings_create (new_OpenAI apiKey) processedText in
  let completion := chat_completions_create (new_OpenAI apiKey) processedText in
  let embeddingCall := EmbeddingsCreate apiKey processedText in
  let completionCall := ChatCompletionsCreate apiKey processedText in
  text <> [] -> apiKey <> [] -> 100 <= words textStats ->
  (forall message, embedding = Rejected message ->
     analyzeText text apiKey
     = (Rejected (str "Failed to analyze text: Failed to perform embedding analysis: "
                    ++ message), [embeddingCall]))
  /\ (forall v message, embedding = Fulfilled v -> completion = Rejected message ->
        analyzeText text apiKey
        = (Rejected (str "Failed to analyze text: Failed to perform completion analysis: "
                       ++ message), [embeddingCall; completionCall])).
Proof.
  cbv zeta. intros Ht Hk Hw. unfold analyzeText, analyzeTextWithEnhancedOpenAI.
  destruct text as [|c0 text]; [congruence|]. destruct apiKey as [|k0 apiKey]; [congruence|].
  cbv beta iota zeta. apply Z.ltb_ge in Hw. rewrite Hw.
  generalize dependent (preprocessText (c0 :: text)). intros processedText _.
  generalize (calculateEnhancedTextStats processedText). intros textStats.
  generalize (k0 :: apiKey). clear. intros apiKey.
  split.
  - intros m ->. reflexivity.
  - intros v m -> ->. reflexivity.
Qed.

(** X19.  A text of 100 words or more whose two calls do well, the
    completion with a well-formed object (one that has an array of factors,
    as the prompt asks): both requests are sent, the embedding first, and
    the result is the combined score, the rounded sum of 0.3 times the
    probability of the embedding and 0.7 times that of the completion,
    under the model hybrid-approach, with the factor of the embedding
    before those of the completion. *)
Theorem analyzeText_long_text_combined (text apiKey : jsstring)
  (v : list number) (c : RemoteScore) :
  let processedText := preprocessText text in
  let textStats := calculateEnhancedTextStats processedText in
  let embedding := embeddings_create (new_OpenAI apiKey) processedText in
  let completion := chat_completions_create (new_OpenAI apiKey) processedText in
  let embeddingCall := EmbeddingsCreate apiKey processedText in
  let completionCall := ChatCompletionsCreate apiKey processedText in
  text <> [] -> apiKey <> [] -> 100 <= words textStats ->
  embedding = Fulfilled v -> completion = Fulfilled c ->
  exists r, analyzeText text apiKey = (Fulfilled r, [embeddingCall; completionCall])
    /\ Analysis.aiProbability r
       = Math_round (add (mul (similarityProbability
                                 (cosineSimilarity v aiPattern)
                                 (cosineSimilarity v humanPattern))
                              embeddingWeight)
                         (mul (aiProbability c) completionWeight))
    /\ Analysis.textStats r = textStats
    /\ Analysis.model (Analysis.apiDetails r) = str "hybrid-approach"
    /\ Analysis.confidenceFactors (Analysis.apiDetails r)
       = str "Embedding similarity analysis" :: factors c
    /\ Analysis.sourceModel r = str "enhanced-openai".
Proof.
  cbv zeta. intros Ht Hk Hw. unfold analyzeText, analyzeTextWithEnhancedOpenAI.
  destruct text as [|c0 text]; [congruence|]. destruct apiKey as [|k0 apiKey]; [congruence|].
  cbv beta iota zeta. apply Z.ltb_ge in Hw. rewrite Hw.
  generalize dependent (preprocessText (c0 :: text)). intros processedText _.
  generalize (calculateEnhancedTextStats processedText). intros textStats.
  generalize (k0 :: apiKey). clear. intros apiKey.
  intros -> ->. eexists. split; [reflexivity|]. repeat split.
Qed.

End PipelineFacts.

Section KeyFacts.

Variable new_OpenAI : jsstring -> OpenAI.

(** X14.  A key is valid exactly when it starts with sk- and the listing of the
    models succeeds with an array; a key without the prefix is refused
    without any request. *)
Theorem validateOpenAIKey_spec (apiKey : jsstring) :
  let r := validateOpenAIKey new_OpenAI apiKey in
  (fst r = true <->
     startsWith apiKey (str "sk-") = true
     /\ models_list (new_OpenAI apiKey) = Fulfilled true)
  /\ (startsWith apiKey (str "sk-") = false -> r = (false, []))
  /\ (startsWith apiKey (str "sk-") = true -> snd r = [ModelsList apiKey]).
Proof.
  cbv zeta. unfold validateOpenAIKey. destruct apiKey as [|k0 apiKey].
  - cbn. repeat split; try discriminate. intros [H _]. discriminate.
  - destruct (startsWith (k0 :: apiKey) (str "sk-")) eqn:Hs; cbn [negb].
    + destruct (models_list _) as [[|]|m]; cbn; repeat split; try discriminate; intuition congruence.
    + cbn. repeat split; try discriminate. intros [H _]. discriminate.
Qed.

End KeyFacts.


(* ===================================================================== *)
(** * More on the batch loop *)
(* ===================================================================== *)


Section BatchEdges.

Context {Analysis : Type}.
Variable analyze : nat -> jsstring -> jsstring -> outcome Analysis.
Variable completion_order : nat -> list nat.
Variable texts : list jsstring.
Variable apiKey : jsstring.

(** X15.  The batch returns exactly when every promise of every group settles:
    one analysis that never settles keeps the whole batch from
    returning, whatever the other analyses do. *)
Theorem analyzeBatch_returns_iff :
  is_Some (analyzeBatchWithEnhancedOpenAI analyze completion_order texts apiKey)
  <-> all_settle completion_order texts.
Proof.
  split.
  - intros [results Hr] k g Hg j Hj.
    destruct (decide (j ∈ completion_order (batchSize * k)%nat)) as [Hin|Hnot];
      [assumption|].
    unfold analyzeBatchWithEnhancedOpenAI in Hr.
    change 0%nat with (batchSize * 0)%nat in Hr.
    rewrite (loop_blocked analyze completion_order texts apiKey k j g Hg Hj Hnot k 0) in Hr
      by lia.
    discriminate.
  - intros Hsettle. rewrite (analyzeBatch_result analyze completion_order texts apiKey Hsettle).
    eauto.
Qed.

(** X16.  A text is skipped by the batch, with no analysis started for
    it, exactly when it is made of white space only (the empty text
    included). *)
Theorem batchPromise_blank (index : nat) (text : jsstring) :
  batchPromise analyze apiKey index text = None <-> forallb is_space text = true.
Proof.
  rewrite promise_for_nonblank, nonblank_spec.
  destruct (forallb is_space text); cbn; split; congruence.
Qed.

Lemma lines_nonblank (inputText : jsstring) :
  List.filter nonblank (lines inputText) = lines inputText.
Proof.
  unfold lines. induction (split 10%N inputText) as [|t l IH]; [reflexivity|].
  cbn [List.filter]. destruct (0 <? length (trim t))%nat eqn:Ht; [|exact IH].
  cbn [List.filter]. rewrite IH. unfold nonblank.
  destruct (trim t); [discriminate|reflexivity].
Qed.

(** X17.  The lines that the page hands to the batch are the non-blank
    lines of the input, so that the batch skips none of them: when every
    promise settles it returns one item for each line, in order. *)
Theorem analyzeBatch_of_lines (inputText : jsstring) :
  all_settle completion_order (lines inputText) ->
  exists results,
    analyzeBatchWithEnhancedOpenAI analyze completion_order (lines inputText) apiKey
    = Some results
    /\ item_text <$> results = lines inputText
    /\ forallb nonblank (lines inputText) = true.
Proof.
  intros Hsettle. eexists. split; [now apply analyzeBatch_result|]. split.
  - rewrite <- (lines_nonblank inputText) at 2.
    apply (items_texts analyze apiKey (lines inputText) id).
  - rewrite <- lines_nonblank. apply forallb_filter_self.
Qed.

End BatchEdges.

Section BatchOfAnalyses.

Variable Number_toString : number -> jsstring.
Variable clients : nat -> jsstring -> OpenAI.
Variable completion_order : nat -> list nat.

Lemma omap_id_cons {A : Type} (x : option A) (l : list (option A)) :
  omap id (x :: l) = match x with Some a => a :: omap id l | None => omap id l end.
Proof. now destruct x. Qed.

Lemma items_without_key (l : list jsstring) :
  forall index : nat -> nat,
    omap id (imap (fun j text =>
                     batchPromise (analyzeItem Number_toString clients) [] (index j) text) l)
    = map (fun text => Failed text (str "Text and API key are required")
                         (of_Z 50) (of_Z 10) (str "Analysis failed"))
          (List.filter nonblank l).
Proof.
  induction l as [|t l IH]; intros index; [reflexivity|].
  rewrite imap_cons, omap_id_cons, promise_for_nonblank. cbn [List.filter].
  destruct (nonblank t); [|exact (IH (index ∘ S))].
  cbn [map]. f_equal; [|exact (IH (index ∘ S))].
  unfold item_for, analyzeItem. now destruct t.
Qed.

(** X18.  Without a key the batch sends nothing: every non-blank text gets the
    record of a failed analysis, with the message that text and key are
    required, and no request is made for any text. *)
Theorem analyzeBatch_without_key (texts : list jsstring) :
  all_settle completion_order texts ->
  analyzeBatchWithEnhancedOpenAI (analyzeItem Number_toString clients)
    completion_order texts []
  = Some (map (fun text => Failed text (str "Text and API key are required")
                             (of_Z 50) (of_Z 10) (str "Analysis failed"))
              (List.filter nonblank texts))
  /\ forall (index : nat) (text : jsstring),
       requestsOf Number_toString clients [] index text = [].
Proof.
  intros Hsettle. split.
  - rewrite analyzeBatch_result by assumption. f_equal. apply (items_without_key texts id).
  - intros index text. unfold requestsOf. now destruct text.
Qed.

End BatchOfAnalyses.

(* ===================================================================== *)
(** * The statements above at sample inputs *)
(* ===================================================================== *)

Lemma cosineSimilarity_zero_witness :
  cosineSimilarity [of_Z 0; of_Z 0] [of_Z 3; NaN] = of_Z 0.
Proof. apply (cosineSimilarity_zero [of_Z 0; of_Z 0] [of_Z 3; NaN]). right. reflexivity. Defined.

Lemma performEmbeddingAnalysis_edge_witness :
  exists r, performEmbeddingAnalysis no_text (Fulfilled [of_Z 1]) = Fulfilled r
            /\ aiProbability r = of_Z 50.
Proof.
  destruct (performEmbeddingAnalysis_edge no_text) as [H _].
  destruct (H [of_Z 1]) as (r & Hr & Hp & _); [cbn; lia|].
  exists r. split; [exact Hr|exact Hp].
Defined.

Lemma combineAnalysisResults_NaN_witness :
  aiProbability (combineAnalysisResults no_text (score NaN (of_Z 70))
                   (score (of_Z 80) (of_Z 90))) = NaN.
Proof.
  apply (combineAnalysisResults_NaN no_text (score NaN (of_Z 70)) (score (of_Z 80) (of_Z 90))).
  left. reflexivity.
Defined.

Lemma calculateValidationScore_within_witness :
  within_0_100 (calculateValidationScore (score (of_Z 80) (of_Z 90)) (stats_of_words 10)) = true.
Proof.
  apply (calculateValidationScore_within (score (of_Z 80) (of_Z 90)) (stats_of_words 10));
    try reflexivity; cbn; lia.
Defined.

Lemma uniqueWords_le_words_plus_one_witness :
  distinct (split space (toLowerCase (str "a  b"))) <= count_longer_than 0 (str "a  b") + 1.
Proof.
  destruct (uniqueWords_le_words_plus_one (str "a  b")) as [H _]. apply H. reflexivity.
Defined.

Lemma readabilityScore_without_words_witness :
  readabilityScore (calculateEnhancedTextStats (str "  ")) = Infinity.
Proof.
  apply (readabilityScore_without_words (str "  ")); [discriminate|reflexivity].
Defined.

Lemma preprocessText_kept_text_witness :
  whitespace_normalized (preprocessText (str " Hi,   there ")) = true.
Proof.
  destruct (preprocessText_kept_text (str " Hi,   there ")) as (_ & H & _);
    [reflexivity|exact H].
Defined.

Lemma analyzeText_short_text_witness :
  snd (analyzeTextWithEnhancedOpenAI no_text sample_client (str "hello  world") (str "sk-k"))
  = [ChatCompletionsCreate (str "sk-k") (str "hello world")].
Proof.
  destruct (analyzeText_short_text no_text sample_client (str "hello  world") (str "sk-k"))
    as (H & _); [discriminate|discriminate|vm_compute; reflexivity|exact H].
Defined.

Lemma analyzeText_long_text_witness :
  fst (analyzeTextWithEnhancedOpenAI no_text sample_client wordy_text (str "sk-k"))
  = Rejected (str "Failed to analyze text: Failed to perform embedding analysis: quota").
Proof.
  destruct (analyzeText_long_text no_text sample_client wordy_text (str "sk-k"))
    as (H & _); [discriminate|discriminate|vm_compute; discriminate|].
  rewrite (H (str "quota") eq_refl). reflexivity.
Defined.

Lemma analyzeText_long_text_combined_witness :
  exists r,
    fst (analyzeTextWithEnhancedOpenAI no_text obliging_client wordy_text (str "sk-k"))
    = Fulfilled r
    /\ Analysis.model (Analysis.apiDetails r) = str "hybrid-approach".
Proof.
  destruct (analyzeText_long_text_combined no_text obliging_client wordy_text (str "sk-k")
              [of_Z 1; of_Z 2] (score (of_Z 80) (of_Z 90)))
    as (r & Hr & _ & _ & Hm & _);
    [discriminate|discriminate|vm_compute; discriminate|reflexivity|reflexivity|].
  exists r. split; [now rewrite Hr|exact Hm].
Defined.

Lemma validateOpenAIKey_spec_witness :
  validateOpenAIKey sample_client (str "key") = (false, []).
Proof.
  destruct (validateOpenAIKey_spec sample_client (str "key")) as (_ & H & _).
  apply H. reflexivity.
Defined.

Lemma analyzeBatch_returns_iff_witness :
  is_Some (analyzeBatchWithEnhancedOpenAI sample_analysis last_first sample_texts (str "sk-k")).
Proof.
  apply (analyzeBatch_returns_iff sample_analysis last_first sample_texts (str "sk-k")).
  apply last_first_settles.
Defined.

Lemma batchPromise_blank_witness :
  batchPromise sample_analysis (str "sk-k") 2 (str "  ") = None.
Proof.
  apply (batchPromise_blank sample_analysis (str "sk-k") 2 (str "  ")). reflexivity.
Defined.

Lemma analyzeBatch_of_lines_witness :
  exists results,
    analyzeBatchWithEnhancedOpenAI sample_analysis last_first (lines sample_input) (str "sk-k")
    = Some results
    /\ item_text <$> results = [str "one"; str "two"].
Proof.
  destruct (analyzeBatch_of_lines sample_analysis last_first (str "sk-k") sample_input
              (last_first_settles _)) as (results & H & Ht & _).
  exists results. split; [exact H|exact Ht].
Defined.

Lemma analyzeBatch_without_key_witness :
  analyzeBatchWithEnhancedOpenAI (analyzeItem no_text (fun _ => sample_client))
    last_first sample_texts []
  = Some (map (fun text => Failed text (str "Text and API key are required")
                             (of_Z 50) (of_Z 10) (str "Analysis failed"))
              [str "one"; str "two"; str "four"]).
Proof.
  destruct (analyzeBatch_without_key no_text (fun _ => sample_client) last_first
              sample_texts (last_first_settles _)) as [H _].
  exact H.
Defined.
